(** * Wolfe line search and Gauss-Newton iteration

    A shallow embedding of the two routines of [jupyter/con_ana_8.ipynb],
    [line_search_wolfe] and [gauss_newton], and the properties of their
    control flow; then of the example functions the notebooks run them on,
    [f], [r], [J], [df] of [con_ana_8.ipynb] and Shekel's foxholes [J],
    [dJ], [d2J] of [con_ana_7.ipynb].

    Number model.  The notebook computes with numpy [float64] scalars.  Here
    a scalar is an exact rational ([Q]); rounding, overflow, underflow and
    NaN are outside the model.  The only non-finite value the code itself
    writes, [np.inf] in [alpha_max], is a constructor of its own ([bound]).
    Equality of scalars is [Qeq] ([==]), the order is [Qle]/[Qlt].
    Where underflow decides a property, the line search is also embedded
    over binary64 floats ([F64]).

    Vectors are lists of scalars with the shapes the caller supplies taken
    as consistent (numpy raises on a shape mismatch).  The iteration caps
    [m], [N] and the counters [i], [k] are Python integers ([Z]).

    The two library calls of [gauss_newton], [la.norm] and
    [np.linalg.lstsq], are not code of the notebook: they are section
    variables. *)

From Stdlib Require Import ZArith QArith Qabs List Bool Lia Lqa.
From Stdlib Require Floats.PrimFloat.
Import ListNotations.

Open Scope Q_scope.

(** ** Scalars, vectors and Python's comparison operators *)

Definition vec := list Q.
Definition mat := list vec.

(** [u + v] on arrays of one shape. *)
Fixpoint vadd (u v : vec) : vec :=
  match u, v with
  | a :: u', b :: v' => (a + b) :: vadd u' v'
  | _, _ => []
  end.

(** [c * v], a scalar times an array. *)
Definition vscale (c : Q) (v : vec) : vec := map (Qmult c) v.

(** [-v]. *)
Definition vneg (v : vec) : vec := map Qopp v.

(** [u.dot( v )]. *)
Fixpoint dot (u v : vec) : Q :=
  match u, v with
  | a :: u', b :: v' => a * b + dot u' v'
  | _, _ => 0
  end.

(** [a >= b], [a <= b], [a > b], [a < b] on scalars. *)
Definition Qge_bool (a b : Q) : bool := Qle_bool b a.
Definition Qgt_bool (a b : Q) : bool := negb (Qle_bool a b).
Definition Qlt_bool (a b : Q) : bool := negb (Qle_bool b a).

(** ** A generic [while] loop

    [while fuel cond body s] runs [while cond(s): s = body(s)] for at most
    [fuel] rounds.  Both loops of the notebook count up to a cap, so the
    cap is enough fuel ([ls_loop_exit], [gn_loop_exit] below): the result
    is the state on which the Python loop exits. *)

Fixpoint while {S : Type} (fuel : nat) (cond : S -> bool) (body : S -> S)
  (s : S) : S :=
  match fuel with
  | O => s
  | Datatypes.S n => if cond s then while n cond body (body s) else s
  end.

(** One guarded round: what the loop does to [s] in one trip through its
    head. *)
Definition round {S : Type} (cond : S -> bool) (body : S -> S) (s : S) : S :=
  if cond s then body s else s.

(** ** Line search with Wolfe conditions *)

(** The value of [alpha_max]: a float, or [np.inf]. *)
Inductive bound : Type :=
| Finite (q : Q)
| Infinity.

(** [alpha_max >= np.inf]. *)
Definition is_inf (b : bound) : bool :=
  match b with
  | Infinity => true
  | Finite _ => false
  end.

(** The variables the loop of [line_search_wolfe] assigns. *)
Record ls_state : Type := mk_ls {
  ls_alpha_min : Q;
  ls_alpha : Q;
  ls_alpha_max : bound;
  ls_fz : Q;
  ls_hz : Q;
  ls_i : Z
}.

(** The branch of the [if]/[elif] a round takes. *)
Inductive branch : Type :=
| Shrink   (* fz > W1 *)
| Double   (* hz < W2, alpha_max >= np.inf *)
| Raise    (* hz < W2, alpha_max finite *)
| Keep.    (* neither test holds *)

Section LineSearch.

Variables (x : vec) (a : Q) (p : vec).
Variables (f : vec -> Q) (g : vec -> vec).
Variables (c1 c2 : Q) (m : Z).

(** [fx], [hx], and the two bounds, all assigned once before the loop. *)
Definition ls_fx : Q := f x.
Definition ls_hx : Q := dot (g x) p.
Definition ls_W1 : Q := ls_fx + a * c1 * ls_hx.
Definition ls_W2 : Q := c2 * ls_hx.

(** [z = x + alpha * p; fz = f( z ); gz = g( z ); hz = gz.dot( p )]. *)
Definition trial (al : Q) : vec := vadd x (vscale al p).
Definition phi (al : Q) : Q := f (trial al).
Definition dphi (al : Q) : Q := dot (g (trial al)) p.

Definition ls_init : ls_state :=
  mk_ls 0 a Infinity (phi a) (dphi a) 0%Z.

(** [( fz >= W1 or hz <= W2 ) and i < m]. *)
Definition ls_cond (s : ls_state) : bool :=
  (Qge_bool (ls_fz s) ls_W1 || Qle_bool (ls_hz s) ls_W2)
  && (ls_i s <? m)%Z.

(** The [if]/[elif] of the loop body: the new
    [(alpha_min, alpha, alpha_max)]. *)
Definition ls_update (s : ls_state) : Q * Q * bound :=
  if Qgt_bool (ls_fz s) ls_W1 then
    let alpha_max := ls_alpha s in
    (ls_alpha_min s, (1 # 2) * (ls_alpha_min s + alpha_max),
     Finite alpha_max)
  else if Qlt_bool (ls_hz s) ls_W2 then
    match ls_alpha_max s with
    | Infinity => (ls_alpha_min s, 2 * ls_alpha s, Infinity)
    | Finite amax =>
        let alpha_min := ls_alpha s in
        (alpha_min, (1 # 2) * (alpha_min + amax), Finite amax)
    end
  else (ls_alpha_min s, ls_alpha s, ls_alpha_max s).

(** The loop body: the update, then the new trial point and [i + 1]. *)
Definition ls_body (s : ls_state) : ls_state :=
  let '(amin, al, amax) := ls_update s in
  mk_ls amin al amax (phi al) (dphi al) (ls_i s + 1)%Z.

(** Which branch the body takes on [s]: the same tests, in the same
    order, as [ls_update]. *)
Definition ls_branch (s : ls_state) : branch :=
  if Qgt_bool (ls_fz s) ls_W1 then Shrink
  else if Qlt_bool (ls_hz s) ls_W2 then
    if is_inf (ls_alpha_max s) then Double else Raise
  else Keep.

Definition ls_loop (s : ls_state) : ls_state :=
  while (Z.to_nat m) ls_cond ls_body s.

(** [chk = fz > W1 or hz < W2]. *)
Definition ls_chk (s : ls_state) : bool :=
  Qgt_bool (ls_fz s) ls_W1 || Qlt_bool (ls_hz s) ls_W2.

Definition line_search_wolfe : Q * Z * bool :=
  let s := ls_loop ls_init in
  (ls_alpha s, ls_i s, ls_chk s).

(** The loop state after [j] trips through the loop head. *)
Definition ls_at (j : nat) : ls_state :=
  Nat.iter j (round ls_cond ls_body) ls_init.

(** Round [j] runs the loop body. *)
Definition ls_runs (j : nat) : Prop := ls_cond (ls_at j) = true.

End LineSearch.

(** ** Algorithm for Gauss-Newton *)

(** The variables the loop of [gauss_newton] assigns. *)
Record gn_state : Type := mk_gn {
  gn_x : vec;
  gn_alpha : Q;
  gn_ng : Q;
  gn_F : list Q;
  gn_G : list Q;
  gn_k : Z
}.

Section GaussNewton.

(** [la.norm] and [np.linalg.lstsq( A, b, rcond = None )[0]]. *)
Variables (norm : vec -> Q) (lstsq : mat -> vec -> vec).

Variables (x0 : vec) (f : vec -> Q) (df r : vec -> vec) (J : vec -> mat).
Variables (N : Z) (err c1 c2 : Q) (lsi : Z).

(** [ng = 2 * err; alpha = 1; F = []; G = []; k = 0]. *)
Definition gn_init : gn_state := mk_gn x0 1 (2 * err) [] [] 0%Z.

(** [k < N and ng > err]. *)
Definition gn_cond (s : gn_state) : bool :=
  (gn_k s <? N)%Z && Qgt_bool (gn_ng s) err.

(** [p = np.linalg.lstsq( J( x ), -r( x ), rcond = None )[0]]. *)
Definition gn_direction (x : vec) : vec := lstsq (J x) (vneg (r x)).

(** The line search a round calls, on the round's [x], [alpha] and [p]. *)
Definition gn_search (s : gn_state) : Q * Z * bool :=
  line_search_wolfe (gn_x s) (gn_alpha s) (gn_direction (gn_x s))
    f df c1 c2 lsi.

Definition gn_body (s : gn_state) : gn_state :=
  let p := gn_direction (gn_x s) in
  let '(alpha, _, _) := gn_search s in
  let x := vadd (gn_x s) (vscale alpha p) in
  let ng := norm (df x) in
  mk_gn x alpha ng (gn_F s ++ [f x]) (gn_G s ++ [ng]) (gn_k s + 1)%Z.

Definition gn_loop (s : gn_state) : gn_state :=
  while (Z.to_nat N) gn_cond gn_body s.

Definition gauss_newton : vec * list Q * list Q * Z :=
  let s := gn_loop gn_init in
  (gn_x s, gn_F s, gn_G s, gn_k s).

(** The loop state after [j] trips through the loop head. *)
Definition gn_at (j : nat) : gn_state :=
  Nat.iter j (round gn_cond gn_body) gn_init.

(** Round [j] runs the loop body. *)
Definition gn_runs (j : nat) : Prop := gn_cond (gn_at j) = true.

End GaussNewton.

(** ** The conditions the line search is named after *)

(** The Armijo upper bound at step length [al]:
    [f(x) + al * c1 * (g(x) . p)]. *)
Definition armijo_bound (x p : vec) (f : vec -> Q) (g : vec -> vec)
  (c1 al : Q) : Q :=
  f x + al * c1 * dot (g x) p.

(** The curvature bound [c2 * (g(x) . p)]. *)
Definition curvature_bound (x p : vec) (g : vec -> vec) (c2 : Q) : Q :=
  c2 * dot (g x) p.

(** The value [fz] meets the Armijo bound [W1] and the slope [hz] meets the
    curvature bound [W2]. *)
Definition wolfe_satisfied (W1 W2 fz hz : Q) : Prop :=
  fz <= W1 /\ W2 <= hz.

(** [alpha_min <= alpha <= alpha_max], with [np.inf] above every float. *)
Definition le_bound (q : Q) (b : bound) : Prop :=
  match b with
  | Finite u => q <= u
  | Infinity => True
  end.

Definition bound_le (b b' : bound) : Prop :=
  match b, b' with
  | _, Infinity => True
  | Finite u, Finite u' => u <= u'
  | Infinity, Finite _ => False
  end.

Definition bracket_ok (s : ls_state) : Prop :=
  ls_alpha_min s <= ls_alpha s /\ le_bound (ls_alpha s) (ls_alpha_max s).

(** What the loop keeps true of the bracket when the guess is positive. *)
Definition bracket_inv (s : ls_state) : Prop :=
  0 <= ls_alpha_min s /\ bracket_ok s /\ 0 < ls_alpha s.

(** The state [t] is at the trial point of [s]. *)
Definition same_trial (s t : ls_state) : Prop :=
  ls_alpha_min t = ls_alpha_min s /\ ls_alpha t = ls_alpha s /\
  ls_alpha_max t = ls_alpha_max s /\
  ls_fz t = ls_fz s /\ ls_hz t = ls_hz s.

(** [alpha_min < alpha < alpha_max], strictly. *)
Definition lt_bound (q : Q) (b : bound) : Prop :=
  match b with
  | Finite u => q < u
  | Infinity => True
  end.

Definition bracket_strict (s : ls_state) : Prop :=
  ls_alpha_min s < ls_alpha s /\ lt_bound (ls_alpha s) (ls_alpha_max s).

(** With a finite [alpha_max], [alpha] sits at the midpoint. *)
Definition at_midpoint (s : ls_state) : Prop :=
  match ls_alpha_max s with
  | Finite u => ls_alpha s == (1 # 2) * (ls_alpha_min s + u)
  | Infinity => True
  end.

(** The width [alpha_max - alpha_min] of a bounded bracket. *)
Definition width (s : ls_state) : option Q :=
  match ls_alpha_max s with
  | Finite u => Some (u - ls_alpha_min s)
  | Infinity => None
  end.

(** [2 ** n] as a scalar. *)
Definition pow2 (n : Z) : Q := inject_Z (2 ^ n).


(** What a positive guess and [i] rounds allow of the step length. *)
Definition step_bounded (a : Q) (s : ls_state) : Prop :=
  (0 <= ls_i s)%Z /\
  a <= pow2 (ls_i s) * ls_alpha s /\
  ls_alpha s <= pow2 (ls_i s) * a /\
  le_bound (ls_alpha s) (ls_alpha_max s) /\
  match ls_alpha_max s with
  | Finite u => u <= pow2 (ls_i s) * a
  | Infinity => True
  end.

(** ** Matrices *)

(** [np.eye( n )]. *)
Definition eye (n : nat) : mat :=
  map (fun i => map (fun j => if Nat.eqb i j then 1 else 0) (seq 0 n))
    (seq 0 n).

(** [M.T] for an array [M] with [cols] columns. *)
Definition transpose (cols : nat) (M : mat) : mat :=
  map (fun j => map (fun row => nth j row 0) M) (seq 0 cols).

(** [M.dot( v )], a matrix times a vector. *)
Definition matvec (M : mat) (v : vec) : vec :=
  map (fun row => dot row v) M.

(** Two arrays with equal entries. *)
Definition veq (u v : vec) : Prop := Forall2 Qeq u v.

(** Every entry is zero. *)
Definition vzero (v : vec) : Prop := Forall (fun q => q == 0) v.

(** ** The first example of the Gauss-Newton notebook

    [f(x) = |x|^2 + |x|^4] with residual [r(x) = (x, |x|^2)] and Jacobian
    [J(x) = (I; 2 x^T)].  [la.norm] and the global [n] are parameters;
    [np.reshape( 2 * x, ( 1, n ) )] raises unless [x] has [n] entries. *)

Module Example1.

Section Functions.

Variable norm : vec -> Q.
Variable n : nat.

Definition f (x : vec) : Q := norm x ^ 2 + norm x ^ 4.

Definition r (x : vec) : vec := x ++ [norm x ^ 2].

Definition J (x : vec) : mat := eye n ++ [vscale 2 x].

Definition df (x : vec) : vec := matvec (transpose n (J x)) (r x).

End Functions.

End Example1.

(** [la.norm] on integer arrays whose squared length is a perfect
    square. *)
Definition norm_int (v : vec) : Q :=
  inject_Z (Z.sqrt (Qnum (Qred (dot v v)))).

(** ** Shekel's foxholes, the second example *)

(** [u - v] on arrays of one shape, and [np.sum( v )]. *)
Fixpoint vsub (u v : vec) : vec :=
  match u, v with
  | a :: u', b :: v' => (a - b) :: vsub u' v'
  | _, _ => []
  end.

Definition vsum (v : vec) : Q := fold_right Qplus 0 v.

(** The functions of [jupyter/con_ana_7.ipynb].  The globals [A] (one row
    per foxhole) and [b] are parameters, and [n] is [A.shape[1]].  The
    powers [**(-1.0)], [**(-2.0)], [**(-3.0)] are reciprocals, taken of
    positive numbers whenever [b] has a positive sum. *)

Module Shekel.

Section Functions.

Variables (A : mat) (b : vec) (n : nat).

Definition v (x : vec) : vec :=
  map (fun row => vsum (vadd (map (fun q => q ^ 2) (vsub x row)) b)) A.

Definition J (x : vec) : Q := - vsum (map (fun q => q ^ (-1)) (v x)).

Definition dJ (x : vec) : vec :=
  map (fun j =>
         2 * vsum (map (fun i => nth i (v x) 0 ^ (-2)
                                 * (nth j x 0 - nth j (nth i A []) 0))
                     (seq 0 (length A))))
    (seq 0 n).

Definition d2J (x : vec) : mat :=
  map (fun k =>
         map (fun l =>
                let h :=
                  (-8) * vsum (map (fun i => nth i (v x) 0 ^ (-3)
                                     * (nth k x 0 - nth k (nth i A []) 0)
                                     * (nth l x 0 - nth l (nth i A []) 0))
                                 (seq 0 (length A))) in
                if Nat.eqb k l
                then h + 2 * vsum (map (fun q => q ^ (-2)) (v x))
                else h)
           (seq 0 n))
    (seq 0 n).

End Functions.

End Shekel.

(** Every row of [A] has as many entries as [b]. *)
Definition rows_like (A : mat) (b : vec) : Prop :=
  Forall (fun row : vec => length row = length b) A.

(** ** One-dimensional test problems *)

(** [f(z) = q z^2 - s z] on arrays of length one, and its gradient. *)
Definition quad (q s : Q) (v : vec) : Q :=
  match v with
  | [z] => q * z * z - s * z
  | _ => 0
  end.

Definition dquad (q s : Q) (v : vec) : vec :=
  match v with
  | [z] => [2 * q * z - s]
  | _ => []
  end.

(** The residual [r(x) = x] with Jacobian [J(x) = I], in dimension one. *)
Definition r_id (v : vec) : vec := v.
Definition J_id (_ : vec) : mat := [[1]].

(** [la.norm] and [np.linalg.lstsq] on arrays of length one: [|z|], and
    the solution [b / a] of [a p = b]. *)
Definition norm_1d (v : vec) : Q :=
  match v with
  | [z] => Qabs.Qabs z
  | _ => 0
  end.

Definition lstsq_1d (A : mat) (b : vec) : vec :=
  match A, b with
  | [[u]], [w] => [w / u]
  | _, _ => []
  end.

(** ** The line search over binary64 floats

    The same statements of [line_search_wolfe], with numpy's [float64]
    scalars as primitive floats: every operation rounds as IEEE 754
    prescribes, and [np.inf] is the float [infinity]. *)

Module F64.

Import PrimFloat.

Definition vec := list float.

Fixpoint vadd (u v : vec) : vec :=
  match u, v with
  | a :: u', b :: v' => (a + b)%float :: vadd u' v'
  | _, _ => []
  end.

Definition vscale (c : float) (v : vec) : vec :=
  map (fun q => (c * q)%float) v.

Fixpoint dot (u v : vec) : float :=
  match u, v with
  | a :: u', b :: v' => (a * b + dot u' v')%float
  | _, _ => 0%float
  end.

Record ls_state : Type := mk_ls {
  ls_alpha_min : float;
  ls_alpha : float;
  ls_alpha_max : float;
  ls_fz : float;
  ls_hz : float;
  ls_i : Z
}.

Section LineSearch.

Variables (x : vec) (a : float) (p : vec).
Variables (f : vec -> float) (g : vec -> vec).
Variables (c1 c2 : float) (m : Z).

Definition ls_fx : float := f x.
Definition ls_hx : float := dot (g x) p.
Definition ls_W1 : float := (ls_fx + a * c1 * ls_hx)%float.
Definition ls_W2 : float := (c2 * ls_hx)%float.

Definition trial (al : float) : vec := vadd x (vscale al p).

Definition ls_init : ls_state :=
  mk_ls 0%float a infinity (f (trial a)) (dot (g (trial a)) p) 0%Z.

(** [( fz >= W1 or hz <= W2 ) and i < m]. *)
Definition ls_cond (s : ls_state) : bool :=
  ((ls_W1 <=? ls_fz s)%float || (ls_hz s <=? ls_W2)%float)
  && (ls_i s <? m)%Z.

Definition ls_update (s : ls_state) : float * float * float :=
  if (ls_W1 <? ls_fz s)%float then
    let alpha_max := ls_alpha s in
    (ls_alpha_min s, (0.5 * (ls_alpha_min s + alpha_max))%float, alpha_max)
  else if (ls_hz s <? ls_W2)%float then
    if (infinity <=? ls_alpha_max s)%float then
      (ls_alpha_min s, (2 * ls_alpha s)%float, ls_alpha_max s)
    else
      let alpha_min := ls_alpha s in
      (alpha_min, (0.5 * (alpha_min + ls_alpha_max s))%float,
       ls_alpha_max s)
  else (ls_alpha_min s, ls_alpha s, ls_alpha_max s).

Definition ls_body (s : ls_state) : ls_state :=
  let '(amin, al, amax) := ls_update s in
  mk_ls amin al amax (f (trial al)) (dot (g (trial al)) p) (ls_i s + 1)%Z.

(** [chk = fz > W1 or hz < W2]. *)
Definition ls_chk (s : ls_state) : bool :=
  (ls_W1 <? ls_fz s)%float || (ls_hz s <? ls_W2)%float.

Definition line_search_wolfe : float * Z * bool :=
  let s := while (Z.to_nat m) ls_cond ls_body ls_init in
  (ls_alpha s, ls_i s, ls_chk s).

End LineSearch.



End F64.

(** * Properties *)

(** ** Comparison operators *)

Lemma Qgt_bool_iff (u v : Q) : Qgt_bool u v = true <-> v < u.
Proof.
  unfold Qgt_bool. rewrite negb_true_iff.
  split; intro H.
  - apply Qnot_le_lt. intro L. apply Qle_bool_iff in L. congruence.
  - destruct (Qle_bool u v) eqn:E; [|reflexivity].
    apply Qle_bool_iff in E. lra.
Qed.

Lemma Qgt_bool_false (u v : Q) : Qgt_bool u v = false <-> u <= v.
Proof.
  unfold Qgt_bool. rewrite negb_false_iff. apply Qle_bool_iff.
Qed.

Lemma Qlt_bool_iff (u v : Q) : Qlt_bool u v = true <-> u < v.
Proof. apply (Qgt_bool_iff v u). Qed.

Lemma Qlt_bool_false (u v : Q) : Qlt_bool u v = false <-> v <= u.
Proof. apply (Qgt_bool_false v u). Qed.

Lemma Qge_bool_iff (u v : Q) : Qge_bool u v = true <-> v <= u.
Proof. apply Qle_bool_iff. Qed.

(** ** The [while] loop as iterated guarded rounds *)

Section WhileFacts.

Context {S : Type} (cond : S -> bool) (body : S -> S).

Local Abbreviation rounds n s := (Nat.iter n (round cond body) s).

Lemma round_idle (s : S) : cond s = false -> round cond body s = s.
Proof. unfold round. now intros ->. Qed.

Lemma round_runs (s : S) : cond s = true -> round cond body s = body s.
Proof. unfold round. now intros ->. Qed.

Lemma rounds_idle (n : nat) (s : S) : cond s = false -> rounds n s = s.
Proof.
  intro H. induction n as [|n IH]; simpl.
  - reflexivity.
  - rewrite IH. now apply round_idle.
Qed.

Lemma while_rounds (n : nat) (s : S) : while n cond body s = rounds n s.
Proof.
  revert s. induction n as [|n IH]; intro s.
  - reflexivity.
  - rewrite Nat.iter_succ_r. simpl. unfold round at 2.
    destruct (cond s) eqn:E.
    + apply IH.
    + symmetry. now apply rounds_idle.
Qed.

Lemma rounds_add (j n : nat) (s : S) : rounds (j + n) s = rounds n (rounds j s).
Proof. rewrite Nat.add_comm. apply Nat.iter_add. Qed.

(** Once the guard fails the state no longer moves. *)
Lemma rounds_stopped (j n : nat) (s : S) :
  (j <= n)%nat -> cond (rounds j s) = false -> rounds n s = rounds j s.
Proof.
  intros L H. replace n with (j + (n - j))%nat by lia.
  rewrite rounds_add. now apply rounds_idle.
Qed.

(** A round that runs was preceded by rounds that ran. *)
Lemma rounds_runs_le (j n : nat) (s : S) :
  (j <= n)%nat -> cond (rounds n s) = true -> cond (rounds j s) = true.
Proof.
  intros L H. destruct (cond (rounds j s)) eqn:E; [reflexivity|].
  rewrite (rounds_stopped j n s L E) in H. congruence.
Qed.

(** The first round whose guard fails. *)
Lemma rounds_first_stop (n : nat) (s : S) :
  cond (rounds n s) = false ->
  exists j, (j <= n)%nat /\
            (forall j', (j' < j)%nat -> cond (rounds j' s) = true) /\
            cond (rounds j s) = false /\
            rounds n s = rounds j s.
Proof.
  induction n as [|n IH]; intro H.
  - exists 0%nat. repeat split; auto. intros j' L. lia.
  - destruct (cond (rounds n s)) eqn:E.
    + exists (Datatypes.S n). repeat split; auto.
      intros j' L. apply (rounds_runs_le j' n); [lia|exact E].
    + destruct (IH eq_refl) as (j & L & Hr & Hs & He).
      exists j. repeat split; auto.
      rewrite <- He. apply (rounds_stopped n); [lia|exact E].
Qed.

(** A property kept by the body holds after every round. *)
Lemma rounds_invariant (P : S -> Prop) (s : S) :
  P s -> (forall t, P t -> cond t = true -> P (body t)) ->
  forall n, P (rounds n s).
Proof.
  intros H0 Hstep n. induction n as [|n IH]; simpl.
  - exact H0.
  - destruct (cond (rounds n s)) eqn:E.
    + rewrite (round_runs _ E). now apply Hstep.
    + now rewrite (round_idle _ E).
Qed.

(** Loops that count up to a cap. *)
Section Counter.

Variables (cnt : S -> Z) (cap : Z).
Hypothesis body_cnt : forall s, cnt (body s) = (cnt s + 1)%Z.
Hypothesis cond_cap : forall s, cond s = true -> (cnt s < cap)%Z.

Lemma rounds_cnt (n : nat) (s : S) :
  (forall j, (j < n)%nat -> cond (rounds j s) = true) ->
  cnt (rounds n s) = (cnt s + Z.of_nat n)%Z.
Proof.
  induction n as [|n IH]; intro H.
  - simpl. lia.
  - simpl. rewrite round_runs by (apply H; lia).
    rewrite body_cnt, IH; [lia|]. intros j L. apply H. lia.
Qed.

Lemma rounds_cnt_runs (n : nat) (s : S) :
  cond (rounds n s) = true -> cnt (rounds n s) = (cnt s + Z.of_nat n)%Z.
Proof.
  intro H. apply rounds_cnt. intros j L.
  apply (rounds_runs_le j n); [lia|exact H].
Qed.

Lemma rounds_exit (n : nat) (s : S) :
  (cap - cnt s <= Z.of_nat n)%Z -> cond (rounds n s) = false.
Proof.
  intro L. destruct (cond (rounds n s)) eqn:E; [|reflexivity].
  pose proof (cond_cap _ E) as C.
  rewrite (rounds_cnt_runs n s E) in C. lia.
Qed.

Lemma rounds_cnt_le (n : nat) (s : S) :
  (cnt (rounds n s) <= cnt s + Z.of_nat n)%Z.
Proof.
  induction n as [|n IH].
  - simpl. lia.
  - change (rounds (Datatypes.S n) s) with (round cond body (rounds n s)).
    destruct (cond (rounds n s)) eqn:E.
    + rewrite (round_runs _ E), body_cnt. lia.
    + rewrite (round_idle _ E). lia.
Qed.

Lemma rounds_cnt_cap (n : nat) (s : S) :
  (cnt (rounds n s) <= Z.max (cnt s) cap)%Z.
Proof.
  induction n as [|n IH]; simpl.
  - lia.
  - destruct (cond (rounds n s)) eqn:E.
    + rewrite (round_runs _ E), body_cnt. apply cond_cap in E. lia.
    + now rewrite (round_idle _ E).
Qed.

End Counter.

End WhileFacts.

(** ** Line search: the loop *)

(** Closed comparisons of rationals, by computation. *)
Ltac qdecide :=
  repeat match goal with
  | |- _ /\ _ => split
  | |- _ == _ => apply Qeq_bool_iff; vm_compute; reflexivity
  | |- _ <= _ => apply Qle_bool_iff; vm_compute; reflexivity
  | |- _ < _ => apply Qlt_bool_iff; vm_compute; reflexivity
  | |- ~ _ == _ => apply Qeq_bool_neq; vm_compute; reflexivity
  | |- @eq _ _ _ => vm_compute; reflexivity
  end.

Section LineSearchFacts.

Variables (x : vec) (a : Q) (p : vec).
Variables (f : vec -> Q) (g : vec -> vec).
Variables (c1 c2 : Q) (m : Z).

Local Abbreviation W1 := (ls_W1 x a p f g c1).
Local Abbreviation W2 := (ls_W2 x p g c2).
Local Abbreviation cond := (ls_cond x a p f g c1 c2 m).
Local Abbreviation body := (ls_body x a p f g c1 c2).
Local Abbreviation init := (ls_init x a p f g).
Local Abbreviation st := (ls_at x a p f g c1 c2 m).

Lemma ls_body_i (s : ls_state) : ls_i (body s) = (ls_i s + 1)%Z.
Proof. unfold ls_body. now destruct (ls_update _ _ _ _ _ _ _ s) as [[? ?] ?]. Qed.

Lemma ls_cond_cap (s : ls_state) : cond s = true -> (ls_i s < m)%Z.
Proof.
  unfold ls_cond. rewrite andb_true_iff, Z.ltb_lt. tauto.
Qed.

Lemma ls_at_succ (j : nat) : st (S j) = round cond body (st j).
Proof. reflexivity. Qed.

Lemma ls_loop_at : ls_loop x a p f g c1 c2 m init = st (Z.to_nat m).
Proof. apply while_rounds. Qed.

(** The cap [m] is enough fuel: the loop exits on a failed guard. *)
Lemma ls_loop_exit : cond (ls_loop x a p f g c1 c2 m init) = false.
Proof.
  rewrite ls_loop_at.
  apply (rounds_exit cond body ls_i m ls_body_i ls_cond_cap).
  simpl. lia.
Qed.

(** [fz] and [hz] are the values at the current trial point. *)
Lemma ls_at_trial (j : nat) :
  ls_fz (st j) = phi x p f (ls_alpha (st j)) /\
  ls_hz (st j) = dphi x p g (ls_alpha (st j)).
Proof.
  apply (rounds_invariant cond body
           (fun s => ls_fz s = phi x p f (ls_alpha s) /\
                     ls_hz s = dphi x p g (ls_alpha s))).
  - split; reflexivity.
  - intros t _ _. unfold ls_body.
    destruct (ls_update _ _ _ _ _ _ _ t) as [[? ?] ?]. split; reflexivity.
Qed.

Lemma ls_at_i_bounds (j : nat) : (0 <= ls_i (st j) <= Z.max 0 m)%Z.
Proof.
  split.
  - apply (rounds_invariant cond body (fun s => (0 <= ls_i s)%Z)).
    + simpl. lia.
    + intros t H _. rewrite ls_body_i. lia.
  - apply (rounds_cnt_cap cond body ls_i m ls_body_i ls_cond_cap j init).
Qed.

(** The four branches of the body, case by case. *)
Lemma ls_body_shrink (s : ls_state) :
  ls_branch x a p f g c1 c2 s = Shrink ->
  ls_alpha_min (body s) = ls_alpha_min s /\
  ls_alpha (body s) = (1 # 2) * (ls_alpha_min s + ls_alpha s) /\
  ls_alpha_max (body s) = Finite (ls_alpha s).
Proof.
  unfold ls_branch, ls_body, ls_update.
  destruct (Qgt_bool (ls_fz s) W1).
  - intros _. repeat split.
  - destruct (Qlt_bool (ls_hz s) W2); [|discriminate].
    destruct (ls_alpha_max s); discriminate.
Qed.

Lemma ls_body_double (s : ls_state) :
  ls_branch x a p f g c1 c2 s = Double ->
  ls_alpha_max s = Infinity /\
  ls_alpha_min (body s) = ls_alpha_min s /\
  ls_alpha (body s) = 2 * ls_alpha s /\
  ls_alpha_max (body s) = Infinity.
Proof.
  unfold ls_branch, ls_body, ls_update.
  destruct (Qgt_bool (ls_fz s) W1); [discriminate|].
  destruct (Qlt_bool (ls_hz s) W2); [|discriminate].
  destruct (ls_alpha_max s); [discriminate|].
  intros _. repeat split.
Qed.

Lemma ls_body_raise (s : ls_state) :
  ls_branch x a p f g c1 c2 s = Raise ->
  exists amax, ls_alpha_max s = Finite amax /\
    ls_alpha_min (body s) = ls_alpha s /\
    ls_alpha (body s) = (1 # 2) * (ls_alpha s + amax) /\
    ls_alpha_max (body s) = Finite amax.
Proof.
  unfold ls_branch, ls_body, ls_update.
  destruct (Qgt_bool (ls_fz s) W1); [discriminate|].
  destruct (Qlt_bool (ls_hz s) W2); [|discriminate].
  destruct (ls_alpha_max s) as [u|]; [|discriminate].
  intros _. exists u. repeat split.
Qed.

Lemma ls_body_keep (s : ls_state) :
  ls_branch x a p f g c1 c2 s = Keep ->
  ls_alpha_min (body s) = ls_alpha_min s /\
  ls_alpha (body s) = ls_alpha s /\
  ls_alpha_max (body s) = ls_alpha_max s.
Proof.
  unfold ls_branch, ls_body, ls_update.
  destruct (Qgt_bool (ls_fz s) W1); [discriminate|].
  destruct (Qlt_bool (ls_hz s) W2).
  - destruct (ls_alpha_max s); discriminate.
  - intros _. repeat split.
Qed.

End LineSearchFacts.

(** ** Line search: the returned flag *)




(** ** Line search: the Armijo bound of the tests *)

(** The bound the tests of a call use, in the specification's words, is
    the Armijo bound at the initial guess [a], and [W2] is the curvature
    bound. *)
Lemma ls_W1_initial (x : vec) (a : Q) (p : vec) (f : vec -> Q)
  (g : vec -> vec) (c1 : Q) :
  ls_W1 x a p f g c1 = armijo_bound x p f g c1 a.
Proof. reflexivity. Qed.

Lemma ls_W2_curvature (x p : vec) (g : vec -> vec) (c2 : Q) :
  ls_W2 x p g c2 = curvature_bound x p g c2.
Proof. reflexivity. Qed.

(** C3.  The bound [W1] is assigned once, before the loop, from the initial
    guess, and the tests of every later round still use it.  On
    [f(z) = (5/4) z^2 - z] from [x = 0] along [p = 1] with [a = 1],
    [c1 = 1/4], [c2 = 1/2], [m = 10]: the second round runs with
    [alpha = 1/2], where the Armijo bound is [-1/8], and tests against
    [W1 = -1/4]; the trial [alpha = 1/2] satisfies both Wolfe conditions
    and is rejected by the stale bound, and the call gives up at
    [alpha = 1/1024] with [chk = True]. *)
Lemma line_search_wolfe_W1_not_updated :
  let f := quad (5 # 4) 1 in
  let g := dquad (5 # 4) 1 in
  let s1 := ls_at [0] 1 [1] f g (1 # 4) (1 # 2) 10 1 in
  let W1 := ls_W1 [0] 1 [1] f g (1 # 4) in
  let W2 := ls_W2 [0] [1] g (1 # 2) in
  ls_runs [0] 1 [1] f g (1 # 4) (1 # 2) 10 1 /\
  ls_alpha s1 == 1 # 2 /\
  W1 == - (1 # 4) /\
  armijo_bound [0] [1] f g (1 # 4) (ls_alpha s1) == - (1 # 8) /\
  ~ W1 == armijo_bound [0] [1] f g (1 # 4) (ls_alpha s1) /\
  wolfe_satisfied (armijo_bound [0] [1] f g (1 # 4) (ls_alpha s1)) W2
    (ls_fz s1) (ls_hz s1) /\
  ls_branch [0] 1 [1] f g (1 # 4) (1 # 2) s1 = Shrink /\
  line_search_wolfe [0] 1 [1] f g (1 # 4) (1 # 2) 10 = (1 # 1024, 10%Z, true).
Proof.
  cbv zeta. unfold ls_runs, wolfe_satisfied. qdecide.
Qed.

(** ** Line search: the bracket *)

Lemma bound_le_refl (b : bound) : bound_le b b.
Proof. destruct b; simpl; [lra|exact I]. Qed.


Section Bracket.

Variables (x : vec) (a : Q) (p : vec).
Variables (f : vec -> Q) (g : vec -> vec).
Variables (c1 c2 : Q) (m : Z).

Local Abbreviation cond := (ls_cond x a p f g c1 c2 m).
Local Abbreviation body := (ls_body x a p f g c1 c2).
Local Abbreviation st := (ls_at x a p f g c1 c2 m).

Lemma ls_body_bracket (s : ls_state) :
  bracket_inv s ->
  bracket_inv (body s) /\
  ls_alpha_min s <= ls_alpha_min (body s) /\
  bound_le (ls_alpha_max (body s)) (ls_alpha_max s).
Proof.
  unfold bracket_inv, bracket_ok. intros (H0 & [H1 H2] & H3).
  destruct (ls_branch x a p f g c1 c2 s) eqn:B.
  - destruct (ls_body_shrink x a p f g c1 c2 s B) as (E1 & E2 & E3).
    rewrite E1, E2, E3. simpl.
    repeat split; try lra.
    destruct (ls_alpha_max s); simpl in *; [lra|exact I].
  - destruct (ls_body_double x a p f g c1 c2 s B) as (E0 & E1 & E2 & E3).
    rewrite E1, E2, E3, E0. simpl. repeat split; lra.
  - destruct (ls_body_raise x a p f g c1 c2 s B) as (u & E0 & E1 & E2 & E3).
    rewrite E1, E2, E3, E0. rewrite E0 in H2. simpl in *.
    repeat split; lra.
  - destruct (ls_body_keep x a p f g c1 c2 s B) as (E1 & E2 & E3).
    rewrite E1, E2, E3. repeat split; try lra; try assumption.
    apply bound_le_refl.
Qed.

Lemma ls_at_bracket (j : nat) : 0 < a -> bracket_inv (st j).
Proof.
  intro Ha. apply (rounds_invariant cond body bracket_inv).
  - unfold bracket_inv, bracket_ok. simpl. repeat split; lra.
  - intros t Ht _. now apply ls_body_bracket.
Qed.



End Bracket.



Section Float64.

Import PrimFloat.


End Float64.

(** ** Line search: doubling and bisection *)

Section Doubling.

Variables (x : vec) (a : Q) (p : vec).
Variables (f : vec -> Q) (g : vec -> vec).
Variables (c1 c2 : Q) (m : Z).

Local Abbreviation cond := (ls_cond x a p f g c1 c2 m).
Local Abbreviation body := (ls_body x a p f g c1 c2).
Local Abbreviation st := (ls_at x a p f g c1 c2 m).





End Doubling.



(** ** Line search: equality at a bound *)

Section Stall.

Variables (x : vec) (a : Q) (p : vec).
Variables (f : vec -> Q) (g : vec -> vec).
Variables (c1 c2 : Q) (m : Z).

Local Abbreviation W1 := (ls_W1 x a p f g c1).
Local Abbreviation W2 := (ls_W2 x p g c2).
Local Abbreviation cond := (ls_cond x a p f g c1 c2 m).
Local Abbreviation body := (ls_body x a p f g c1 c2).
Local Abbreviation st := (ls_at x a p f g c1 c2 m).

(** No strict violation: the body takes neither update branch. *)
Lemma ls_branch_keep (s : ls_state) :
  ls_fz s <= W1 -> W2 <= ls_hz s -> ls_branch x a p f g c1 c2 s = Keep.
Proof.
  intros H1 H2. unfold ls_branch.
  apply Qgt_bool_false in H1. apply Qlt_bool_false in H2.
  now rewrite H1, H2.
Qed.

(** An equality at a bound holds the Wolfe part of the guard true. *)
Lemma ls_cond_equality (s : ls_state) :
  ls_fz s == W1 \/ ls_hz s == W2 -> cond s = (ls_i s <? m)%Z.
Proof.
  intro H. unfold ls_cond.
  replace (Qge_bool (ls_fz s) W1 || Qle_bool (ls_hz s) W2) with true;
    [reflexivity|].
  symmetry. apply orb_true_iff. destruct H as [H|H].
  - left. apply Qge_bool_iff. lra.
  - right. apply Qle_bool_iff. lra.
Qed.

Lemma ls_stall (j n : nat) :
  ls_fz (st j) <= W1 -> W2 <= ls_hz (st j) -> (j <= n)%nat ->
  same_trial (st j) (st n).
Proof.
  intros H1 H2 L. replace n with (j + (n - j))%nat by lia.
  unfold ls_at. rewrite rounds_add. fold (st j).
  apply (rounds_invariant cond body (same_trial (st j))).
  - repeat split.
  - intros t (T1 & T2 & T3 & T4 & T5) _.
    assert (B : ls_branch x a p f g c1 c2 t = Keep)
      by (apply ls_branch_keep; rewrite ?T4, ?T5; assumption).
    destruct (ls_body_keep x a p f g c1 c2 t B) as (E1 & E2 & E3).
    destruct (ls_at_trial x a p f g c1 c2 m j) as [Ef Eh].
    unfold same_trial. rewrite E1, E2, E3, T1, T2, T3.
    repeat split.
    + rewrite Ef, <- T2, <- E2. unfold ls_body.
      now destruct (ls_update _ _ _ _ _ _ _ t) as [[? ?] ?].
    + rewrite Eh, <- T2, <- E2. unfold ls_body.
      now destruct (ls_update _ _ _ _ _ _ _ t) as [[? ?] ?].
Qed.

End Stall.

(** C10.  If at some round neither strict test holds ([fz <= W1] and
    [hz >= W2]) while an equality holds the guard true ([fz = W1] or
    [hz = W2]), the body takes neither update branch; from that round on
    the bracket, [alpha], [fz] and [hz] never change; every round below the
    cap [m] runs; and the call returns that [alpha] after reaching the cap,
    with [chk = False]. *)
Theorem line_search_wolfe_equality_stalls
  (x : vec) (a : Q) (p : vec) (f : vec -> Q) (g : vec -> vec)
  (c1 c2 : Q) (m : Z) (j : nat) :
  let st := ls_at x a p f g c1 c2 m in
  let W1 := ls_W1 x a p f g c1 in
  let W2 := ls_W2 x p g c2 in
  ls_fz (st j) <= W1 -> W2 <= ls_hz (st j) ->
  ls_fz (st j) == W1 \/ ls_hz (st j) == W2 ->
  ls_branch x a p f g c1 c2 (st j) = Keep /\
  (forall n, (j <= n)%nat -> same_trial (st j) (st n)) /\
  (forall n, (j <= n)%nat -> (Z.of_nat n < m)%Z ->
     ls_runs x a p f g c1 c2 m n) /\
  line_search_wolfe x a p f g c1 c2 m = (ls_alpha (st j), Z.max 0 m, false).
Proof.
  intros st W1 W2 H1 H2 He.
  assert (Hst : forall n, (j <= n)%nat -> same_trial (st j) (st n))
    by (intros n L; now apply ls_stall).
  assert (Hcond : forall t, same_trial (st j) t ->
            ls_cond x a p f g c1 c2 m t = (ls_i t <? m)%Z).
  { intros t (_ & _ & _ & T4 & T5). apply ls_cond_equality.
    now rewrite T4, T5. }
  split; [now apply ls_branch_keep|]. split; [exact Hst|]. split.
  - intros n L Lm. unfold ls_runs. fold st. rewrite (Hcond _ (Hst n L)).
    apply Z.ltb_lt.
    pose proof (rounds_cnt_le (ls_cond x a p f g c1 c2 m)
                  (ls_body x a p f g c1 c2) ls_i
                  (ls_body_i x a p f g c1 c2) n (ls_init x a p f g)) as C.
    simpl in C. unfold st, ls_at. lia.
  - pose proof (ls_loop_exit x a p f g c1 c2 m) as Hexit.
    unfold line_search_wolfe. rewrite ls_loop_at in *.
    fold (st (Z.to_nat m)) in *.
    assert (ST : same_trial (st j) (st (Z.to_nat m))).
    { destruct (le_lt_dec j (Z.to_nat m)) as [L|L].
      - now apply Hst.
      - unfold st, ls_at.
        rewrite (rounds_stopped _ _ (Z.to_nat m) j); [|lia|exact Hexit].
        repeat split. }
    rewrite (Hcond _ ST) in Hexit. apply Z.ltb_ge in Hexit.
    pose proof (ls_at_i_bounds x a p f g c1 c2 m (Z.to_nat m)) as Hb.
    fold st in Hb.
    destruct ST as (_ & T2 & _ & T4 & T5).
    f_equal; [f_equal|].
    + exact T2.
    + lia.
    + unfold ls_chk. rewrite T4, T5.
      apply Qgt_bool_false in H1. apply Qlt_bool_false in H2.
      unfold W1 in H1. unfold W2 in H2.
      now rewrite H1, H2.
Qed.

Lemma line_search_wolfe_equality_stalls_witness :
  let f := quad 1 0 in
  let g := dquad 1 0 in
  let st := ls_at [1] (1 # 2) [-1] f g (1 # 10) (1 # 2) 10 in
  let W1 := ls_W1 [1] (1 # 2) [-1] f g (1 # 10) in
  let W2 := ls_W2 [1] [-1] g (1 # 2) in
  (ls_fz (st 0%nat) <= W1 /\ W2 <= ls_hz (st 0%nat) /\
   (ls_fz (st 0%nat) == W1 \/ ls_hz (st 0%nat) == W2)) /\
  ls_branch [1] (1 # 2) [-1] f g (1 # 10) (1 # 2) (st 0%nat) = Keep /\
  (forall n, (0 <= n)%nat -> same_trial (st 0%nat) (st n)) /\
  (forall n, (0 <= n)%nat -> (Z.of_nat n < 10)%Z ->
     ls_runs [1] (1 # 2) [-1] f g (1 # 10) (1 # 2) 10 n) /\
  line_search_wolfe [1] (1 # 2) [-1] f g (1 # 10) (1 # 2) 10
  = (ls_alpha (st 0%nat), Z.max 0 10, false).
Proof.
  intros f g st W1 W2.
  assert (H1 : ls_fz (st 0%nat) <= W1) by qdecide.
  assert (H2 : W2 <= ls_hz (st 0%nat)) by qdecide.
  assert (He : ls_fz (st 0%nat) == W1 \/ ls_hz (st 0%nat) == W2)
    by (right; qdecide).
  split; [repeat split; assumption|].
  exact (line_search_wolfe_equality_stalls
           [1] (1 # 2) [-1] f g (1 # 10) (1 # 2) 10 0 H1 H2 He).
Defined.

(** ** Gauss-Newton: the outer loop *)

Section GaussNewtonFacts.

Variables (norm : vec -> Q) (lstsq : mat -> vec -> vec).
Variables (x0 : vec) (f : vec -> Q) (df r : vec -> vec) (J : vec -> mat).
Variables (N : Z) (err c1 c2 : Q) (lsi : Z).

Local Abbreviation cond := (gn_cond N err).
Local Abbreviation body := (gn_body norm lstsq f df r J c1 c2 lsi).
Local Abbreviation init := (gn_init x0 err).
Local Abbreviation st := (gn_at norm lstsq x0 f df r J N err c1 c2 lsi).
Local Abbreviation runs := (gn_runs norm lstsq x0 f df r J N err c1 c2 lsi).
Local Abbreviation search := (gn_search lstsq f df r J c1 c2 lsi).

(** The body, in terms of what the line search returned. *)
Lemma gn_body_search (s : gn_state) (alpha : Q) (i : Z) (chk : bool) :
  search s = (alpha, i, chk) ->
  let x' := vadd (gn_x s) (vscale alpha (gn_direction lstsq r J (gn_x s))) in
  body s = mk_gn x' alpha (norm (df x'))
             (gn_F s ++ [f x']) (gn_G s ++ [norm (df x')]) (gn_k s + 1)%Z.
Proof. intro H. unfold gn_body. now rewrite H. Qed.

Lemma gn_body_k (s : gn_state) : gn_k (body s) = (gn_k s + 1)%Z.
Proof.
  destruct (search s) as [[al i] chk] eqn:E.
  now rewrite (gn_body_search s al i chk E).
Qed.

Lemma gn_cond_cap (s : gn_state) : cond s = true -> (gn_k s < N)%Z.
Proof. unfold gn_cond. rewrite andb_true_iff, Z.ltb_lt. tauto. Qed.

Lemma gn_at_succ (j : nat) : st (S j) = round cond body (st j).
Proof. reflexivity. Qed.

Lemma gn_loop_at :
  gn_loop norm lstsq f df r J N err c1 c2 lsi init = st (Z.to_nat N).
Proof. apply while_rounds. Qed.

(** The cap [N] is enough fuel: the loop exits on a failed guard. *)
Lemma gn_loop_exit :
  cond (gn_loop norm lstsq f df r J N err c1 c2 lsi init) = false.
Proof.
  rewrite gn_loop_at.
  apply (rounds_exit cond body gn_k N gn_body_k gn_cond_cap).
  simpl. lia.
Qed.

(** The rounds that run are the first [n], and the loop returns the state
    after them. *)
Lemma gn_loop_steps :
  exists n : nat,
    (n <= Z.to_nat N)%nat /\
    (forall j, (j < n)%nat -> runs j) /\
    cond (st n) = false /\
    gn_loop norm lstsq f df r J N err c1 c2 lsi init = st n /\
    gn_k (st n) = Z.of_nat n.
Proof.
  pose proof gn_loop_exit as Hexit. rewrite gn_loop_at in *.
  destruct (rounds_first_stop cond body (Z.to_nat N) init Hexit)
    as (n & L & Hr & Hs & He).
  exists n. repeat split; try assumption.
  unfold gn_at.
  rewrite (rounds_cnt cond body gn_k gn_body_k n init Hr). simpl. lia.
Qed.

(** Both histories are as long as the count [k]. *)
Lemma gn_at_lengths (j : nat) :
  Z.of_nat (length (gn_F (st j))) = gn_k (st j) /\
  Z.of_nat (length (gn_G (st j))) = gn_k (st j).
Proof.
  apply (rounds_invariant cond body
           (fun s => Z.of_nat (length (gn_F s)) = gn_k s /\
                     Z.of_nat (length (gn_G s)) = gn_k s)).
  - split; reflexivity.
  - intros t [HF HG] _.
    destruct (search t) as [[al i] chk] eqn:E.
    rewrite (gn_body_search t al i chk E). simpl.
    rewrite !length_app. simpl. lia.
Qed.

(** Histories only grow at the end. *)
Lemma gn_at_prefix (j n : nat) :
  (j <= n)%nat ->
  (exists l, gn_F (st n) = gn_F (st j) ++ l) /\
  (exists l, gn_G (st n) = gn_G (st j) ++ l).
Proof.
  intro L. induction L as [|n L [[lF IF] [lG IG]]].
  - split; exists []; now rewrite app_nil_r.
  - rewrite gn_at_succ. destruct (cond (st n)) eqn:C.
    + rewrite (round_runs _ _ _ C).
      destruct (search (st n)) as [[al i] chk] eqn:E.
      rewrite (gn_body_search _ al i chk E). simpl.
      rewrite IF, IG, <- !app_assoc. split; eexists; reflexivity.
    + rewrite (round_idle _ _ _ C). split; eauto.
Qed.

End GaussNewtonFacts.

(** C6.  The guess handed to the line search is [1] in the first round
    and, in every later round, the step length the previous round's line
    search returned; whatever flag the search returns, the round moves
    [x] to [x + alpha * p] with the returned [alpha]. *)
Theorem gauss_newton_warm_start
  (norm : vec -> Q) (lstsq : mat -> vec -> vec)
  (x0 : vec) (f : vec -> Q) (df r : vec -> vec) (J : vec -> mat)
  (N : Z) (err c1 c2 : Q) (lsi : Z)
  (j : nat) (alpha : Q) (i : Z) (chk : bool) :
  let st := gn_at norm lstsq x0 f df r J N err c1 c2 lsi in
  let p := gn_direction lstsq r J (gn_x (st j)) in
  gn_runs norm lstsq x0 f df r J N err c1 c2 lsi j ->
  line_search_wolfe (gn_x (st j)) (gn_alpha (st j)) p f df c1 c2 lsi
  = (alpha, i, chk) ->
  gn_alpha (st 0%nat) = 1 /\
  gn_alpha (st (S j)) = alpha /\
  gn_x (st (S j)) = vadd (gn_x (st j)) (vscale alpha p).
Proof.
  intros st p R H. subst p st. split; [reflexivity|].
  rewrite gn_at_succ, (round_runs _ _ _ R).
  rewrite (gn_body_search norm lstsq f df r J c1 c2 lsi _ alpha i chk H).
  split; reflexivity.
Qed.

Lemma gauss_newton_warm_start_witness :
  let f := quad 1 0 in
  let df := dquad 1 0 in
  let st := gn_at norm_1d lstsq_1d [3] f df r_id J_id 5
              (1 # 100) (9 # 10) (19 # 20) 4 in
  let p := gn_direction lstsq_1d r_id J_id (gn_x (st 0%nat)) in
  let L := line_search_wolfe (gn_x (st 0%nat)) (gn_alpha (st 0%nat)) p
             f df (9 # 10) (19 # 20) 4 in
  (gn_runs norm_1d lstsq_1d [3] f df r_id J_id 5
     (1 # 100) (9 # 10) (19 # 20) 4 0 /\
   fst (fst L) == 1 # 16 /\ snd L = true) /\
  gn_alpha (st 0%nat) = 1 /\
  gn_alpha (st 1%nat) = fst (fst L) /\
  gn_x (st 1%nat) = vadd (gn_x (st 0%nat)) (vscale (fst (fst L)) p).
Proof.
  intros f df st p L.
  assert (R : gn_runs norm_1d lstsq_1d [3] f df r_id J_id 5
                (1 # 100) (9 # 10) (19 # 20) 4 0) by (vm_compute; reflexivity).
  assert (E : L = (fst (fst L), snd (fst L), snd L))
    by (vm_compute; reflexivity).
  split; [split; [exact R|qdecide]|].
  exact (gauss_newton_warm_start norm_1d lstsq_1d [3] f df r_id J_id 5
           (1 # 100) (9 # 10) (19 # 20) 4 0 _ _ _ R E).
Defined.

(** C7.  A round that runs appends one entry to each history: to [G] the
    gradient norm at the iterate just updated, to [F] the objective value
    there.  Entries are never removed (the histories of a round are a
    prefix of those of every later round), and on return both histories
    have length [k]. *)
Theorem gauss_newton_histories
  (norm : vec -> Q) (lstsq : mat -> vec -> vec)
  (x0 : vec) (f : vec -> Q) (df r : vec -> vec) (J : vec -> mat)
  (N : Z) (err c1 c2 : Q) (lsi : Z)
  (x : vec) (F G : list Q) (k : Z) :
  gauss_newton norm lstsq x0 f df r J N err c1 c2 lsi = (x, F, G, k) ->
  let st := gn_at norm lstsq x0 f df r J N err c1 c2 lsi in
  (forall j, gn_runs norm lstsq x0 f df r J N err c1 c2 lsi j ->
     gn_G (st (S j)) = gn_G (st j) ++ [norm (df (gn_x (st (S j))))] /\
     gn_F (st (S j)) = gn_F (st j) ++ [f (gn_x (st (S j)))]) /\
  (forall j n, (j <= n)%nat ->
     (exists l, gn_F (st n) = gn_F (st j) ++ l) /\
     (exists l, gn_G (st n) = gn_G (st j) ++ l)) /\
  Z.of_nat (length F) = k /\ Z.of_nat (length G) = k.
Proof.
  intros H st. split; [|split].
  - intros j R. unfold st. rewrite gn_at_succ, (round_runs _ _ _ R).
    destruct (gn_search lstsq f df r J c1 c2 lsi
                (gn_at norm lstsq x0 f df r J N err c1 c2 lsi j))
      as [[al i] chk] eqn:E.
    rewrite (gn_body_search norm lstsq f df r J c1 c2 lsi _ al i chk E).
    split; reflexivity.
  - intros j n L. now apply gn_at_prefix.
  - unfold gauss_newton in H. rewrite gn_loop_at in H.
    injection H as _ HF HG Hk. rewrite <- HF, <- HG, <- Hk.
    apply gn_at_lengths.
Qed.

Lemma gauss_newton_histories_witness :
  let f := quad 1 0 in
  let df := dquad 1 0 in
  let st := gn_at norm_1d lstsq_1d [3] f df r_id J_id 5
              (1 # 100) (9 # 10) (19 # 20) 4 in
  let R := gauss_newton norm_1d lstsq_1d [3] f df r_id J_id 5
             (1 # 100) (9 # 10) (19 # 20) 4 in
  snd R = 5%Z /\
  (forall j, gn_runs norm_1d lstsq_1d [3] f df r_id J_id 5
               (1 # 100) (9 # 10) (19 # 20) 4 j ->
     gn_G (st (S j)) = gn_G (st j) ++ [norm_1d (df (gn_x (st (S j))))] /\
     gn_F (st (S j)) = gn_F (st j) ++ [f (gn_x (st (S j)))]) /\
  (forall j n, (j <= n)%nat ->
     (exists l, gn_F (st n) = gn_F (st j) ++ l) /\
     (exists l, gn_G (st n) = gn_G (st j) ++ l)) /\
  Z.of_nat (length (snd (fst (fst R)))) = snd R /\
  Z.of_nat (length (snd (fst R))) = snd R.
Proof.
  intros f df st R.
  assert (E : R = (fst (fst (fst R)), snd (fst (fst R)), snd (fst R), snd R))
    by (vm_compute; reflexivity).
  split; [vm_compute; reflexivity|].
  exact (gauss_newton_histories norm_1d lstsq_1d [3] f df r_id J_id 5
           (1 # 100) (9 # 10) (19 # 20) 4 _ _ _ _ E).
Defined.

(** C9.  The guard is first tested on [ng = 2 * err], not on the gradient
    at [x0]: with [err > 0] and [N >= 1] the first round runs whatever
    the gradient norm at [x0] is, and the count returned is at least [1];
    with [err <= 0] no round runs, and the call returns [x0], two empty
    histories and the count [0]. *)
Theorem gauss_newton_first_guard
  (norm : vec -> Q) (lstsq : mat -> vec -> vec)
  (x0 : vec) (f : vec -> Q) (df r : vec -> vec) (J : vec -> mat)
  (N : Z) (err c1 c2 : Q) (lsi : Z) :
  let R := gauss_newton norm lstsq x0 f df r J N err c1 c2 lsi in
  (0 < err -> (1 <= N)%Z ->
     gn_runs norm lstsq x0 f df r J N err c1 c2 lsi 0 /\ (1 <= snd R)%Z) /\
  (err <= 0 -> R = (x0, [], [], 0%Z)).
Proof.
  intro R. split.
  - intros He HN.
    assert (R0 : gn_runs norm lstsq x0 f df r J N err c1 c2 lsi 0).
    { unfold gn_runs, gn_at, gn_cond. simpl.
      apply andb_true_iff. split.
      - apply Z.ltb_lt. lia.
      - apply Qgt_bool_iff. lra. }
    split; [exact R0|].
    destruct (gn_loop_steps norm lstsq x0 f df r J N err c1 c2 lsi)
      as (n & _ & _ & Hs & Hl & Hk).
    unfold R, gauss_newton. simpl. rewrite Hl, Hk.
    destruct n as [|n]; [|lia].
    unfold gn_runs in R0. congruence.
  - intro He. unfold R, gauss_newton.
    assert (C : gn_cond N err (gn_init x0 err) = false).
    { unfold gn_cond. simpl. apply andb_false_iff. right.
      apply Qgt_bool_false. lra. }
    rewrite gn_loop_at. unfold gn_at.
    now rewrite (rounds_idle _ _ _ _ C).
Qed.

Lemma gauss_newton_first_guard_witness :
  let f := quad (1 # 2) 0 in
  let df := dquad (1 # 2) 0 in
  let R := gauss_newton norm_1d lstsq_1d [0] f df r_id J_id 5
             (1 # 100) (1 # 10) (1 # 2) 10 in
  (0 < 1 # 100 /\ (1 <= 5)%Z /\ norm_1d (df [0]) <= 1 # 100 /\
   gn_runs norm_1d lstsq_1d [0] f df r_id J_id 5
     (1 # 100) (1 # 10) (1 # 2) 10 0 /\
   (1 <= snd R)%Z) /\
  (0 <= 0 /\
   gauss_newton norm_1d lstsq_1d [3] f df r_id J_id 5 0 (1 # 10) (1 # 2) 10
   = ([3], [], [], 0%Z)).
Proof.
  intros f df R. split.
  - assert (He : 0 < 1 # 100) by reflexivity.
    assert (HN : (1 <= 5)%Z) by lia.
    destruct (gauss_newton_first_guard norm_1d lstsq_1d [0] f df r_id J_id 5
                (1 # 100) (1 # 10) (1 # 2) 10) as [K _].
    destruct (K He HN) as [K1 K2].
    assert (Hg : norm_1d (df [0]) <= 1 # 100) by qdecide.
    exact (conj He (conj HN (conj Hg (conj K1 K2)))).
  - assert (He : 0 <= 0) by apply Qle_refl.
    destruct (gauss_newton_first_guard norm_1d lstsq_1d [3] f df r_id J_id 5
                0 (1 # 10) (1 # 2) 10) as [_ K].
    split; [exact He|exact (K He)].
Defined.

(** * Further properties of the line search *)

Section LineSearchMore.

Variables (x : vec) (a : Q) (p : vec).
Variables (f : vec -> Q) (g : vec -> vec).
Variables (c1 c2 : Q) (m : Z).

Local Abbreviation W1 := (ls_W1 x a p f g c1).
Local Abbreviation W2 := (ls_W2 x p g c2).
Local Abbreviation cond := (ls_cond x a p f g c1 c2 m).
Local Abbreviation body := (ls_body x a p f g c1 c2).
Local Abbreviation init := (ls_init x a p f g).
Local Abbreviation st := (ls_at x a p f g c1 c2 m).




End LineSearchMore.





Section BracketMore.

Variables (x : vec) (a : Q) (p : vec).
Variables (f : vec -> Q) (g : vec -> vec).
Variables (c1 c2 : Q) (m : Z).

Local Abbreviation cond := (ls_cond x a p f g c1 c2 m).
Local Abbreviation body := (ls_body x a p f g c1 c2).
Local Abbreviation st := (ls_at x a p f g c1 c2 m).
Local Abbreviation branch_of := (ls_branch x a p f g c1 c2).

Lemma ls_body_strict (s : ls_state) :
  0 <= ls_alpha_min s -> bracket_strict s -> bracket_strict (body s).
Proof.
  unfold bracket_strict. intros H0 [H1 H2].
  destruct (branch_of s) eqn:B.
  - destruct (ls_body_shrink x a p f g c1 c2 s B) as (E1 & E2 & E3).
    rewrite E1, E2, E3. simpl. split; lra.
  - destruct (ls_body_double x a p f g c1 c2 s B) as (E0 & E1 & E2 & E3).
    rewrite E1, E2, E3. simpl. split; [lra|exact I].
  - destruct (ls_body_raise x a p f g c1 c2 s B) as (u & E0 & E1 & E2 & E3).
    rewrite E1, E2, E3. rewrite E0 in H2. simpl in *. split; lra.
  - destruct (ls_body_keep x a p f g c1 c2 s B) as (E1 & E2 & E3).
    now rewrite E1, E2, E3.
Qed.

Lemma ls_at_strict (j : nat) : 0 < a -> bracket_strict (st j).
Proof.
  intro Ha.
  apply (rounds_invariant cond body
           (fun s => bracket_inv s /\ bracket_strict s)).
  - split.
    + unfold bracket_inv, bracket_ok. simpl. repeat split; lra.
    + unfold bracket_strict. simpl. split; [lra|exact I].
  - intros t [Hi Hs] _. split.
    + now apply ls_body_bracket.
    + apply ls_body_strict; [apply Hi|exact Hs].
Qed.

(** The midpoint is kept by the body, and made by the first shrink. *)
Lemma ls_body_midpoint (s : ls_state) : at_midpoint s -> at_midpoint (body s).
Proof.
  unfold at_midpoint. intro H.
  destruct (branch_of s) eqn:B.
  - destruct (ls_body_shrink x a p f g c1 c2 s B) as (E1 & E2 & E3).
    rewrite E1, E2, E3. reflexivity.
  - destruct (ls_body_double x a p f g c1 c2 s B) as (E0 & E1 & E2 & E3).
    now rewrite E3.
  - destruct (ls_body_raise x a p f g c1 c2 s B) as (u & E0 & E1 & E2 & E3).
    rewrite E1, E2, E3. reflexivity.
  - destruct (ls_body_keep x a p f g c1 c2 s B) as (E1 & E2 & E3).
    now rewrite E1, E2, E3.
Qed.

Lemma ls_at_midpoint (j : nat) : at_midpoint (st j).
Proof.
  apply (rounds_invariant cond body at_midpoint).
  - exact I.
  - intros t H _. now apply ls_body_midpoint.
Qed.

End BracketMore.

(** X3.  With a positive initial guess the bracket never collapses:
    [alpha_min < alpha < alpha_max] strictly at every round.  So a round
    that shrinks strictly lowers [alpha], and a round that doubles or
    raises strictly increases it. *)
Theorem line_search_wolfe_bracket_strict
  (x : vec) (a : Q) (p : vec) (f : vec -> Q) (g : vec -> vec)
  (c1 c2 : Q) (m : Z) (j : nat) :
  0 < a ->
  let st := ls_at x a p f g c1 c2 m in
  let b := ls_branch x a p f g c1 c2 (st j) in
  bracket_strict (st j) /\
  (ls_runs x a p f g c1 c2 m j ->
     (b = Shrink -> ls_alpha (st (S j)) < ls_alpha (st j)) /\
     (b = Double \/ b = Raise -> ls_alpha (st j) < ls_alpha (st (S j)))).
Proof.
  intros Ha st b.
  pose proof (ls_at_strict x a p f g c1 c2 m j Ha) as [S1 S2].
  pose proof (ls_at_bracket x a p f g c1 c2 m j Ha) as (B0 & _ & B2).
  fold st in S1, S2, B0, B2.
  split; [split; assumption|].
  intro R. unfold st at 1 4. rewrite ls_at_succ, (round_runs _ _ _ R).
  fold st. split.
  - intro B.
    destruct (ls_body_shrink x a p f g c1 c2 _ B) as (_ & E2 & _).
    rewrite E2. lra.
  - intros [B|B].
    + destruct (ls_body_double x a p f g c1 c2 _ B) as (_ & _ & E2 & _).
      rewrite E2. lra.
    + destruct (ls_body_raise x a p f g c1 c2 _ B) as (u & E0 & _ & E2 & _).
      rewrite E2. fold st in E0. rewrite E0 in S2. simpl in S2. lra.
Qed.

Lemma line_search_wolfe_bracket_strict_witness :
  let f := quad (5 # 4) 1 in
  let g := dquad (5 # 4) 1 in
  let st := ls_at [0] 1 [1] f g (1 # 4) (1 # 2) 10 in
  let b := ls_branch [0] 1 [1] f g (1 # 4) (1 # 2) (st 1%nat) in
  (0 < 1 /\ ls_runs [0] 1 [1] f g (1 # 4) (1 # 2) 10 1 /\ b = Shrink) /\
  bracket_strict (st 1%nat) /\
  ls_alpha (st 2%nat) < ls_alpha (st 1%nat).
Proof.
  intros f g st b.
  assert (Ha : 0 < 1) by reflexivity.
  assert (R : ls_runs [0] 1 [1] f g (1 # 4) (1 # 2) 10 1)
    by (vm_compute; reflexivity).
  assert (B : b = Shrink) by (vm_compute; reflexivity).
  destruct (line_search_wolfe_bracket_strict [0] 1 [1] f g (1 # 4) (1 # 2)
              10 1 Ha) as [K1 K2].
  destruct (K2 R) as [K3 _].
  split; [repeat split; assumption|]. split; [exact K1|exact (K3 B)].
Defined.

(** X4.  In exact arithmetic, once [alpha_max] is finite, [alpha] is the
    midpoint of the bracket at every round, and each round that shrinks or
    raises halves the width [alpha_max - alpha_min]. *)
Theorem line_search_wolfe_bisection
  (x : vec) (a : Q) (p : vec) (f : vec -> Q) (g : vec -> vec)
  (c1 c2 : Q) (m : Z) (j : nat) (w : Q) :
  let st := ls_at x a p f g c1 c2 m in
  let b := ls_branch x a p f g c1 c2 (st j) in
  at_midpoint (st j) /\
  (width (st j) = Some w ->
   ls_runs x a p f g c1 c2 m j ->
   b = Shrink \/ b = Raise ->
   exists w', width (st (S j)) = Some w' /\ w' == (1 # 2) * w).
Proof.
  intros st b. split; [apply ls_at_midpoint|].
  intros Hw R B.
  pose proof (ls_at_midpoint x a p f g c1 c2 m j) as M. fold st in M.
  unfold width in Hw. unfold at_midpoint in M.
  destruct (ls_alpha_max (st j)) as [u|] eqn:Eu; [|discriminate].
  injection Hw as Hw. subst w.
  unfold st at 1. rewrite ls_at_succ, (round_runs _ _ _ R). fold st.
  unfold width. destruct B as [B|B].
  - destruct (ls_body_shrink x a p f g c1 c2 _ B) as (E1 & _ & E3).
    rewrite E1, E3. eexists. split; [reflexivity|]. lra.
  - destruct (ls_body_raise x a p f g c1 c2 _ B) as (u' & E0 & E1 & _ & E3).
    rewrite E1, E3. fold st in E0. rewrite Eu in E0. injection E0 as E0.
    eexists. split; [reflexivity|]. subst u'. lra.
Qed.

Lemma line_search_wolfe_bisection_witness :
  let f := quad (5 # 4) 1 in
  let g := dquad (5 # 4) 1 in
  let st := ls_at [0] 1 [1] f g (1 # 4) (1 # 2) 10 in
  let b := ls_branch [0] 1 [1] f g (1 # 4) (1 # 2) (st 1%nat) in
  (width (st 1%nat) = Some (1 - 0) /\
   ls_runs [0] 1 [1] f g (1 # 4) (1 # 2) 10 1 /\ b = Shrink) /\
  at_midpoint (st 1%nat) /\
  exists w', width (st 2%nat) = Some w' /\ w' == (1 # 2) * (1 - 0).
Proof.
  intros f g st b.
  assert (Hw : width (st 1%nat) = Some (1 - 0)) by reflexivity.
  assert (R : ls_runs [0] 1 [1] f g (1 # 4) (1 # 2) 10 1)
    by (vm_compute; reflexivity).
  assert (B : b = Shrink) by (vm_compute; reflexivity).
  destruct (line_search_wolfe_bisection [0] 1 [1] f g (1 # 4) (1 # 2)
              10 1 (1 - 0)) as [K1 K2].
  split; [repeat split; assumption|]. split; [exact K1|].
  exact (K2 Hw R (or_introl B)).
Defined.

(** ** Powers of two *)

Lemma pow2_pos (n : Z) : (0 <= n)%Z -> 0 < pow2 n.
Proof.
  intro H. unfold pow2. change 0 with (inject_Z 0). rewrite <- Zlt_Qlt.
  apply Z.pow_pos_nonneg; lia.
Qed.

Lemma pow2_succ (n : Z) : (0 <= n)%Z -> pow2 (n + 1) == 2 * pow2 n.
Proof.
  intro H. unfold pow2. rewrite Z.pow_add_r by lia.
  rewrite Z.mul_comm, inject_Z_mult. reflexivity.
Qed.

Lemma pow2_mono (n n' : Z) : (0 <= n <= n')%Z -> pow2 n <= pow2 n'.
Proof.
  intro H. unfold pow2. rewrite <- Zle_Qle.
  apply Z.pow_le_mono_r; lia.
Qed.

Section StepSize.

Variables (x : vec) (a : Q) (p : vec).
Variables (f : vec -> Q) (g : vec -> vec).
Variables (c1 c2 : Q) (m : Z).

Local Abbreviation cond := (ls_cond x a p f g c1 c2 m).
Local Abbreviation body := (ls_body x a p f g c1 c2).
Local Abbreviation st := (ls_at x a p f g c1 c2 m).
Local Abbreviation branch_of := (ls_branch x a p f g c1 c2).


Lemma ls_body_step_bounded (s : ls_state) :
  0 < a -> bracket_inv s -> step_bounded a s -> step_bounded a (body s).
Proof.
  unfold bracket_inv, bracket_ok, step_bounded.
  intros Ha (B0 & [B1 B2] & B3) (Hi & L1 & L2 & _ & L3).
  rewrite ls_body_i.
  pose proof (pow2_pos (ls_i s) Hi) as Ht.
  pose proof (pow2_succ (ls_i s) Hi) as Hs.
  set (t := pow2 (ls_i s)) in *. set (t' := pow2 (ls_i s + 1)) in *.
  assert (Ta : 0 < t * a) by (apply Qmult_lt_0_compat; assumption).
  assert (Tm : 0 <= t * ls_alpha_min s)
    by (apply Qmult_le_0_compat; lra).
  assert (Tl : 0 < t * ls_alpha s) by (apply Qmult_lt_0_compat; assumption).
  split; [lia|].
  destruct (branch_of s) eqn:B.
  - destruct (ls_body_shrink x a p f g c1 c2 s B) as (E1 & E2 & E3).
    rewrite E2, E3. simpl. rewrite Hs. repeat split; lra.
  - destruct (ls_body_double x a p f g c1 c2 s B) as (E0 & E1 & E2 & E3).
    rewrite E2, E3. simpl. rewrite Hs. repeat split; lra.
  - destruct (ls_body_raise x a p f g c1 c2 s B) as (u & E0 & E1 & E2 & E3).
    rewrite E2, E3. rewrite E0 in B2, L3. simpl in *. rewrite Hs.
    assert (Tu : 0 <= t * u) by (apply Qmult_le_0_compat; lra).
    repeat split; lra.
  - destruct (ls_body_keep x a p f g c1 c2 s B) as (E1 & E2 & E3).
    rewrite E2, E3. rewrite Hs.
    split; [lra|]. split; [lra|]. split; [exact B2|].
    destruct (ls_alpha_max s); [rewrite Hs; lra|exact I].
Qed.

Lemma ls_at_step_bounded (j : nat) : 0 < a -> step_bounded a (st j).
Proof.
  intro Ha.
  apply (rounds_invariant cond body
           (fun s => bracket_inv s /\ step_bounded a s)).
  - split.
    + unfold bracket_inv, bracket_ok. simpl. repeat split; lra.
    + unfold step_bounded. simpl.
      assert (E : pow2 0 == 1) by reflexivity.
      split; [lia|]. rewrite E. repeat split; lra.
  - intros t [Hi Hs] _. split.
    + now apply ls_body_bracket.
    + now apply ls_body_step_bounded.
Qed.

End StepSize.



(** X6.  With a positive guess [a], a call that returns [alpha] after [i]
    rounds has [a / 2^i <= alpha <= 2^i * a]: each round at most doubles
    and at most halves the step.  So the cap bounds the step, whatever [f]
    and [g] are: [a / 2^max(0,m) <= alpha <= 2^max(0,m) * a]. *)
Theorem line_search_wolfe_step_bounds
  (x : vec) (a : Q) (p : vec) (f : vec -> Q) (g : vec -> vec)
  (c1 c2 : Q) (m : Z) (alpha : Q) (i : Z) (chk : bool) :
  line_search_wolfe x a p f g c1 c2 m = (alpha, i, chk) ->
  0 < a ->
  (a <= pow2 i * alpha /\ alpha <= pow2 i * a) /\
  (a <= pow2 (Z.max 0 m) * alpha /\ alpha <= pow2 (Z.max 0 m) * a).
Proof.
  intros H Ha. unfold line_search_wolfe in H. rewrite ls_loop_at in H.
  injection H as Hal Hi _.
  destruct (ls_at_step_bounded x a p f g c1 c2 m (Z.to_nat m) Ha)
    as (I0 & L1 & L2 & _).
  pose proof (ls_at_bracket x a p f g c1 c2 m (Z.to_nat m) Ha)
    as (_ & _ & Hpos).
  pose proof (ls_at_i_bounds x a p f g c1 c2 m (Z.to_nat m)) as Hb.
  rewrite Hal in L1, L2, Hpos. rewrite Hi in I0, L1, L2, Hb.
  split; [split; assumption|].
  pose proof (pow2_mono i (Z.max 0 m) Hb) as Hm.
  pose proof (pow2_pos i I0) as Hp.
  set (t := pow2 i) in *. set (T := pow2 (Z.max 0 m)) in *.
  assert (M1 : t * alpha <= T * alpha)
    by (apply Qmult_le_compat_r; lra).
  assert (M2 : t * a <= T * a) by (apply Qmult_le_compat_r; lra).
  split; lra.
Qed.

Lemma line_search_wolfe_step_bounds_witness :
  let f := quad (5 # 4) 1 in
  let g := dquad (5 # 4) 1 in
  let L := line_search_wolfe [0] 1 [1] f g (1 # 4) (1 # 2) 10 in
  (L = (1 # 1024, 10%Z, true) /\ 0 < 1) /\
  (1 <= pow2 10 * (1 # 1024) /\ 1 # 1024 <= pow2 10 * 1) /\
  (1 <= pow2 (Z.max 0 10) * (1 # 1024) /\
   1 # 1024 <= pow2 (Z.max 0 10) * 1).
Proof.
  intros f g L.
  assert (E : L = (1 # 1024, 10%Z, true)) by (vm_compute; reflexivity).
  assert (Ha : 0 < 1) by reflexivity.
  split; [split; assumption|].
  exact (line_search_wolfe_step_bounds [0] 1 [1] f g (1 # 4) (1 # 2) 10
           _ _ _ E Ha).
Defined.

(** * Further properties of the Gauss-Newton loop *)

Section GaussNewtonMore.

Variables (norm : vec -> Q) (lstsq : mat -> vec -> vec).
Variables (x0 : vec) (f : vec -> Q) (df r : vec -> vec) (J : vec -> mat).
Variables (N : Z) (err c1 c2 : Q) (lsi : Z).

Local Abbreviation cond := (gn_cond N err).
Local Abbreviation body := (gn_body norm lstsq f df r J c1 c2 lsi).
Local Abbreviation init := (gn_init x0 err).
Local Abbreviation st := (gn_at norm lstsq x0 f df r J N err c1 c2 lsi).
Local Abbreviation runs := (gn_runs norm lstsq x0 f df r J N err c1 c2 lsi).
Local Abbreviation search := (gn_search lstsq f df r J c1 c2 lsi).

(** What a round that runs leaves in [ng] and at the end of [F], [G]. *)
Lemma gn_at_step (j : nat) :
  runs j ->
  gn_ng (st (S j)) = norm (df (gn_x (st (S j)))) /\
  gn_F (st (S j)) = gn_F (st j) ++ [f (gn_x (st (S j)))] /\
  gn_G (st (S j)) = gn_G (st j) ++ [gn_ng (st (S j))] /\
  gn_alpha (st (S j)) = fst (fst (search (st j))).
Proof.
  intro R. rewrite gn_at_succ, (round_runs _ _ _ R).
  destruct (search (st j)) as [[al i] chk] eqn:E.
  rewrite (gn_body_search norm lstsq f df r J c1 c2 lsi _ al i chk E).
  repeat split.
Qed.

Lemma gn_at_k_runs (n : nat) :
  (forall j, (j < n)%nat -> runs j) -> gn_k (st n) = Z.of_nat n.
Proof.
  intro Hr. unfold gn_at.
  rewrite (rounds_cnt cond body gn_k
             (gn_body_k norm lstsq f df r J c1 c2 lsi) n init Hr).
  simpl. lia.
Qed.

(** Entry [j] of each history is what round [j] appended. *)
Lemma gn_at_entry (j n : nat) :
  (forall j', (j' < n)%nat -> runs j') -> (j < n)%nat ->
  nth_error (gn_F (st n)) j = Some (f (gn_x (st (S j)))) /\
  nth_error (gn_G (st n)) j = Some (gn_ng (st (S j))).
Proof.
  intros Hr L.
  destruct (gn_at_prefix norm lstsq x0 f df r J N err c1 c2 lsi (S j) n)
    as [[lF EF] [lG EG]]; [lia|].
  destruct (gn_at_step j (Hr j L)) as (_ & SF & SG & _).
  destruct (gn_at_lengths norm lstsq x0 f df r J N err c1 c2 lsi j)
    as [LF LG].
  assert (Kj : gn_k (st j) = Z.of_nat j)
    by (apply gn_at_k_runs; intros j' L'; apply Hr; lia).
  assert (LF' : length (gn_F (st j)) = j) by lia.
  assert (LG' : length (gn_G (st j)) = j) by lia.
  rewrite EF, EG, SF, SG, <- !app_assoc.
  split.
  - rewrite nth_error_app2 by lia. rewrite LF', Nat.sub_diag. reflexivity.
  - rewrite nth_error_app2 by lia. rewrite LG', Nat.sub_diag. reflexivity.
Qed.

End GaussNewtonMore.

(** C2 (amended).  A call returning the count [k] ran exactly [k] rounds
    of the outer loop, with [0 <= k <= max(0, N)], so [k <= N] for every
    cap [N >= 0].  After each round [ng] is the norm of [df] at the
    iterate just updated, and the loop stops at the first round where that
    norm is at or below [err]: no round runs after such a norm. *)
Theorem gauss_newton_rounds_and_stop
  (norm : vec -> Q) (lstsq : mat -> vec -> vec)
  (x0 : vec) (f : vec -> Q) (df r : vec -> vec) (J : vec -> mat)
  (N : Z) (err c1 c2 : Q) (lsi : Z)
  (x : vec) (F G : list Q) (k : Z) :
  gauss_newton norm lstsq x0 f df r J N err c1 c2 lsi = (x, F, G, k) ->
  let st := gn_at norm lstsq x0 f df r J N err c1 c2 lsi in
  let runs := gn_runs norm lstsq x0 f df r J N err c1 c2 lsi in
  (0 <= k <= Z.max 0 N)%Z /\
  ((0 <= N)%Z -> (k <= N)%Z) /\
  exists n : nat,
    k = Z.of_nat n /\
    (forall j, (j < n)%nat -> runs j) /\
    ~ runs n /\
    (x, F, G, k) = (gn_x (st n), gn_F (st n), gn_G (st n), gn_k (st n)) /\
    (forall j, (j < n)%nat ->
       gn_ng (st (S j)) = norm (df (gn_x (st (S j)))) /\
       (norm (df (gn_x (st (S j)))) <= err -> S j = n) /\
       ((S j < n)%nat -> err < norm (df (gn_x (st (S j)))))).
Proof.
  intros H st runs. unfold gauss_newton in H.
  destruct (gn_loop_steps norm lstsq x0 f df r J N err c1 c2 lsi)
    as (n & L & Hr & Hs & He & Hk).
  rewrite He in H. fold st in Hs, Hk, H.
  assert (Ek : k = Z.of_nat n) by (rewrite <- Hk; congruence).
  assert (Hb : (0 <= k <= Z.max 0 N)%Z) by lia.
  split; [exact Hb|]. split; [lia|].
  exists n. split; [exact Ek|]. split; [exact Hr|]. split.
  - unfold runs, gn_runs. fold st. rewrite Hs. discriminate.
  - split; [now symmetry|].
    intros j Lj.
    destruct (gn_at_step norm lstsq x0 f df r J N err c1 c2 lsi j (Hr j Lj))
      as (Eng & _).
    fold st in Eng.
    assert (Later : (S j < n)%nat -> err < norm (df (gn_x (st (S j))))).
    { intro Lt. assert (R : runs (S j)) by (apply Hr; lia).
      unfold runs, gn_runs, gn_cond in R. fold st in R.
      apply andb_true_iff in R. destruct R as [_ R].
      apply Qgt_bool_iff in R. now rewrite Eng in R. }
    split; [exact Eng|]. split; [|exact Later].
    intro Hng.
    destruct (Nat.eq_dec (S j) n) as [E|E]; [exact E|].
    assert (Lt : (S j < n)%nat) by lia.
    specialize (Later Lt). lra.
Qed.

Lemma gauss_newton_rounds_and_stop_witness :
  let f := quad (1 # 2) 0 in
  let df := dquad (1 # 2) 0 in
  let st := gn_at norm_1d lstsq_1d [3] f df r_id J_id 5
              (1 # 100) (1 # 10) (1 # 2) 10 in
  let runs := gn_runs norm_1d lstsq_1d [3] f df r_id J_id 5
                (1 # 100) (1 # 10) (1 # 2) 10 in
  let R := gauss_newton norm_1d lstsq_1d [3] f df r_id J_id 5
             (1 # 100) (1 # 10) (1 # 2) 10 in
  (R = (fst (fst (fst R)), snd (fst (fst R)), snd (fst R), snd R) /\
   snd R = 1%Z) /\
  (0 <= snd R <= Z.max 0 5)%Z /\
  ((0 <= 5)%Z -> (snd R <= 5)%Z) /\
  exists n : nat,
    snd R = Z.of_nat n /\
    (forall j, (j < n)%nat -> runs j) /\
    ~ runs n /\
    (fst (fst (fst R)), snd (fst (fst R)), snd (fst R), snd R)
    = (gn_x (st n), gn_F (st n), gn_G (st n), gn_k (st n)) /\
    (forall j, (j < n)%nat ->
       gn_ng (st (S j)) = norm_1d (df (gn_x (st (S j)))) /\
       (norm_1d (df (gn_x (st (S j)))) <= 1 # 100 -> S j = n) /\
       ((S j < n)%nat -> 1 # 100 < norm_1d (df (gn_x (st (S j)))))).
Proof.
  intros f df st runs R.
  assert (E : R = (fst (fst (fst R)), snd (fst (fst R)), snd (fst R), snd R))
    by (vm_compute; reflexivity).
  split; [split; [exact E|vm_compute; reflexivity]|].
  exact (gauss_newton_rounds_and_stop norm_1d lstsq_1d [3] f df r_id J_id 5
           (1 # 100) (1 # 10) (1 # 2) 10 _ _ _ _ E).
Defined.

(** C2, as the specification words it, fails for a negative cap: with
    [N = -2] the guard [k < N] fails at once, no round runs, and the count
    returned is [0], which is above [N]. *)
Lemma gauss_newton_negative_cap_count :
  let R := gauss_newton norm_1d lstsq_1d [3] (quad (1 # 2) 0)
             (dquad (1 # 2) 0) r_id J_id (-2) (1 # 100) (1 # 10) (1 # 2) 10 in
  R = ([3], [], [], 0%Z) /\ ~ (snd R <= -2)%Z.
Proof.
  cbv zeta. split; [vm_compute; reflexivity|].
  vm_compute. intro H. now apply H.
Qed.

(** X7.  On return, entry [j] of [F] is the objective at the iterate after
    round [j] and entry [j] of [G] is the gradient norm there, for every
    [j < k]; when at least one round ran, the last entries of [F] and [G]
    are [f(x)] and the norm of [df(x)] at the returned [x]. *)
Theorem gauss_newton_history_entries
  (norm : vec -> Q) (lstsq : mat -> vec -> vec)
  (x0 : vec) (f : vec -> Q) (df r : vec -> vec) (J : vec -> mat)
  (N : Z) (err c1 c2 : Q) (lsi : Z)
  (x : vec) (F G : list Q) (k : Z) :
  gauss_newton norm lstsq x0 f df r J N err c1 c2 lsi = (x, F, G, k) ->
  let st := gn_at norm lstsq x0 f df r J N err c1 c2 lsi in
  (forall j, (Z.of_nat j < k)%Z ->
     nth_error F j = Some (f (gn_x (st (S j)))) /\
     nth_error G j = Some (norm (df (gn_x (st (S j)))))) /\
  ((1 <= k)%Z ->
     exists F' G', F = F' ++ [f x] /\ G = G' ++ [norm (df x)]).
Proof.
  intros H st. unfold gauss_newton in H.
  destruct (gn_loop_steps norm lstsq x0 f df r J N err c1 c2 lsi)
    as (n & _ & Hr & _ & He & Hk).
  rewrite He in H. fold st in H, Hk. injection H as Hx HF HG Hkk.
  assert (Ek : k = Z.of_nat n) by congruence.
  split.
  - intros j L. assert (Lj : (j < n)%nat) by lia.
    destruct (gn_at_entry norm lstsq x0 f df r J N err c1 c2 lsi j n Hr Lj)
      as [EF EG].
    destruct (gn_at_step norm lstsq x0 f df r J N err c1 c2 lsi j (Hr j Lj))
      as (Eng & _).
    fold st in EF, EG, Eng. rewrite <- HF, <- HG, EF, EG, Eng.
    split; reflexivity.
  - intro L. destruct n as [|n]; [lia|].
    assert (Ln : (n < S n)%nat) by lia.
    destruct (gn_at_step norm lstsq x0 f df r J N err c1 c2 lsi n (Hr n Ln))
      as (Eng & SF & SG & _).
    fold st in Eng, SF, SG.
    exists (gn_F (st n)), (gn_G (st n)).
    rewrite <- HF, <- HG, <- Hx, SF, SG, Eng. split; reflexivity.
Qed.

Lemma gauss_newton_history_entries_witness :
  let f := quad 1 0 in
  let df := dquad 1 0 in
  let st := gn_at norm_1d lstsq_1d [3] f df r_id J_id 5
              (1 # 100) (9 # 10) (19 # 20) 4 in
  let R := gauss_newton norm_1d lstsq_1d [3] f df r_id J_id 5
             (1 # 100) (9 # 10) (19 # 20) 4 in
  let x := fst (fst (fst R)) in
  let F := snd (fst (fst R)) in
  let G := snd (fst R) in
  (R = (x, F, G, snd R) /\ snd R = 5%Z) /\
  (forall j, (Z.of_nat j < snd R)%Z ->
     nth_error F j = Some (f (gn_x (st (S j)))) /\
     nth_error G j = Some (norm_1d (df (gn_x (st (S j)))))) /\
  ((1 <= snd R)%Z ->
     exists F' G', F = F' ++ [f x] /\ G = G' ++ [norm_1d (df x)]).
Proof.
  intros f df st R x F G.
  assert (E : R = (x, F, G, snd R)) by (vm_compute; reflexivity).
  split; [split; [exact E|vm_compute; reflexivity]|].
  exact (gauss_newton_history_entries norm_1d lstsq_1d [3] f df r_id J_id 5
           (1 # 100) (9 # 10) (19 # 20) 4 _ _ _ _ E).
Defined.

(** X8.  The loop stops for a reason the caller can read off the result:
    if the count returned is below the cap [N], then either no round ran
    and [err <= 0], or the last entry of [G] is at or below [err]; and
    every entry of [G] before the last exceeds [err]. *)
Theorem gauss_newton_stop_reason
  (norm : vec -> Q) (lstsq : mat -> vec -> vec)
  (x0 : vec) (f : vec -> Q) (df r : vec -> vec) (J : vec -> mat)
  (N : Z) (err c1 c2 : Q) (lsi : Z)
  (x : vec) (F G : list Q) (k : Z) :
  gauss_newton norm lstsq x0 f df r J N err c1 c2 lsi = (x, F, G, k) ->
  ((k < N)%Z ->
     (k = 0%Z /\ G = [] /\ err <= 0) \/
     (exists G' gl, G = G' ++ [gl] /\ gl <= err)) /\
  (forall j gj, (Z.of_nat (S j) < k)%Z ->
     nth_error G j = Some gj -> err < gj).
Proof.
  intro H. unfold gauss_newton in H.
  destruct (gn_loop_steps norm lstsq x0 f df r J N err c1 c2 lsi)
    as (n & _ & Hr & Hs & He & Hk).
  rewrite He in H. injection H as Hx HF HG Hkk.
  assert (Ek : k = Z.of_nat n) by congruence.
  split.
  - intro L. unfold gn_cond in Hs. rewrite Hk in Hs.
    apply andb_false_iff in Hs. destruct Hs as [Hs|Hs].
    + apply Z.ltb_ge in Hs. lia.
    + apply Qgt_bool_false in Hs. destruct n as [|n].
      * left. simpl in Hs. rewrite <- HG. simpl.
        repeat split; [lia|lra].
      * right. assert (Ln : (n < S n)%nat) by lia.
        destruct (gn_at_step norm lstsq x0 f df r J N err c1 c2 lsi n
                    (Hr n Ln)) as (_ & _ & SG & _).
        eexists. eexists. split; [rewrite <- HG; exact SG|exact Hs].
  - intros j gj L Hn.
    assert (Lj : (j < n)%nat) by lia.
    destruct (gn_at_entry norm lstsq x0 f df r J N err c1 c2 lsi j n Hr Lj)
      as [_ EG].
    rewrite HG in EG. rewrite EG in Hn. injection Hn as Hn. rewrite <- Hn.
    assert (R : gn_runs norm lstsq x0 f df r J N err c1 c2 lsi (S j))
      by (apply Hr; lia).
    unfold gn_runs, gn_cond in R. apply andb_true_iff in R.
    destruct R as [_ R]. now apply Qgt_bool_iff in R.
Qed.

Lemma gauss_newton_stop_reason_witness :
  let f := quad (1 # 2) 0 in
  let df := dquad (1 # 2) 0 in
  let R := gauss_newton norm_1d lstsq_1d [3] f df r_id J_id 5
             (1 # 100) (1 # 10) (1 # 2) 10 in
  let G := snd (fst R) in
  (R = (fst (fst (fst R)), snd (fst (fst R)), G, snd R) /\
   (snd R < 5)%Z) /\
  ((snd R = 0%Z /\ G = [] /\ 1 # 100 <= 0) \/
   (exists G' gl, G = G' ++ [gl] /\ gl <= 1 # 100)).
Proof.
  intros f df R G.
  assert (E : R = (fst (fst (fst R)), snd (fst (fst R)), G, snd R))
    by (vm_compute; reflexivity).
  assert (L : (snd R < 5)%Z) by (vm_compute; reflexivity).
  split; [split; assumption|].
  exact (proj1 (gauss_newton_stop_reason norm_1d lstsq_1d [3] f df r_id J_id
                  5 (1 # 100) (1 # 10) (1 # 2) 10 _ _ _ _ E) L).
Defined.

(** X9.  No round runs exactly when the cap [N] is not positive or the
    tolerance [err] is not positive, and the call then returns [x0], two
    empty histories and the count [0]. *)
Theorem gauss_newton_no_round
  (norm : vec -> Q) (lstsq : mat -> vec -> vec)
  (x0 : vec) (f : vec -> Q) (df r : vec -> vec) (J : vec -> mat)
  (N : Z) (err c1 c2 : Q) (lsi : Z) :
  let R := gauss_newton norm lstsq x0 f df r J N err c1 c2 lsi in
  (snd R = 0%Z <-> (N <= 0)%Z \/ err <= 0) /\
  ((N <= 0)%Z \/ err <= 0 -> R = (x0, [], [], 0%Z)).
Proof.
  intro R.
  assert (C : gn_cond N err (gn_init x0 err) = false <->
              (N <= 0)%Z \/ err <= 0).
  { unfold gn_cond. simpl. rewrite andb_false_iff, Z.ltb_ge.
    rewrite Qgt_bool_false. split; (intros [K|K]; [now left|right; lra]). }
  assert (Z0 : (N <= 0)%Z \/ err <= 0 -> R = (x0, [], [], 0%Z)).
  { intro K. apply C in K. unfold R, gauss_newton.
    rewrite gn_loop_at. unfold gn_at.
    now rewrite (rounds_idle _ _ _ _ K). }
  split; [|exact Z0]. split.
  - intro K. apply C.
    destruct (gn_cond N err (gn_init x0 err)) eqn:E; [|reflexivity].
    exfalso.
    destruct (gn_loop_steps norm lstsq x0 f df r J N err c1 c2 lsi)
      as (n & _ & _ & Hs & Hl & Hk).
    unfold R, gauss_newton in K. simpl in K. rewrite Hl, Hk in K.
    assert (n = 0%nat) by lia. subst n. simpl in Hs. congruence.
  - intro K. now rewrite (Z0 K).
Qed.

Lemma gauss_newton_no_round_witness :
  let R := gauss_newton norm_1d lstsq_1d [3] (quad 1 0) (dquad 1 0)
             r_id J_id 0 (1 # 100) (1 # 10) (1 # 2) 10 in
  ((0 <= 0)%Z \/ 1 # 100 <= 0) /\ R = ([3], [], [], 0%Z).
Proof.
  intro R.
  assert (K : (0 <= 0)%Z \/ 1 # 100 <= 0) by (left; lia).
  split; [exact K|].
  exact (proj2 (gauss_newton_no_round norm_1d lstsq_1d [3] (quad 1 0)
                  (dquad 1 0) r_id J_id 0 (1 # 100) (1 # 10) (1 # 2) 10) K).
Defined.

(** ** The warm start across rounds *)

Lemma pow2_add (n n' : Z) :
  (0 <= n)%Z -> (0 <= n')%Z -> pow2 (n + n') == pow2 n * pow2 n'.
Proof.
  intros H H'. unfold pow2. rewrite Z.pow_add_r by lia.
  rewrite inject_Z_mult. reflexivity.
Qed.

(** A line search from a positive guess returns a positive step within a
    factor [2^max(0,m)] of the guess. *)
Lemma ls_return_bounds
  (x : vec) (a : Q) (p : vec) (f : vec -> Q) (g : vec -> vec)
  (c1 c2 : Q) (m : Z) :
  0 < a ->
  let al := fst (fst (line_search_wolfe x a p f g c1 c2 m)) in
  0 < al /\
  a <= pow2 (Z.max 0 m) * al /\ al <= pow2 (Z.max 0 m) * a.
Proof.
  intros Ha al. unfold al, line_search_wolfe. simpl. rewrite ls_loop_at.
  destruct (ls_at_step_bounded x a p f g c1 c2 m (Z.to_nat m) Ha)
    as (I0 & L1 & L2 & _).
  pose proof (ls_at_bracket x a p f g c1 c2 m (Z.to_nat m) Ha)
    as (_ & _ & Hpos).
  pose proof (ls_at_i_bounds x a p f g c1 c2 m (Z.to_nat m)) as Hb.
  pose proof (pow2_mono _ (Z.max 0 m) Hb) as Hm.
  pose proof (pow2_pos _ I0) as Hp.
  set (s := ls_at x a p f g c1 c2 m (Z.to_nat m)) in *.
  set (t := pow2 (ls_i s)) in *. set (T := pow2 (Z.max 0 m)) in *.
  assert (M1 : t * ls_alpha s <= T * ls_alpha s)
    by (apply Qmult_le_compat_r; lra).
  assert (M2 : t * a <= T * a) by (apply Qmult_le_compat_r; lra).
  repeat split; lra.
Qed.

(** X10.  Every guess the outer loop hands to the line search is strictly
    positive, so every call meets the precondition of the bracket
    invariant; after [j] rounds the guess lies within a factor
    [2^(j * max(0, lsi))] of the first guess [1]. *)
Theorem gauss_newton_guess_positive
  (norm : vec -> Q) (lstsq : mat -> vec -> vec)
  (x0 : vec) (f : vec -> Q) (df r : vec -> vec) (J : vec -> mat)
  (N : Z) (err c1 c2 : Q) (lsi : Z) (j : nat) :
  let al := gn_alpha (gn_at norm lstsq x0 f df r J N err c1 c2 lsi j) in
  let B := pow2 (Z.of_nat j * Z.max 0 lsi) in
  0 < al /\ 1 <= B * al /\ al <= B.
Proof.
  induction j as [|j IH].
  - simpl. assert (E : pow2 0 == 1) by reflexivity.
    rewrite E. repeat split; lra.
  - cbv zeta in *. destruct IH as (I0 & I1 & I2).
    set (M := Z.max 0 lsi) in *.
    assert (HM : (0 <= M)%Z) by (unfold M; lia).
    assert (EB : pow2 (Z.of_nat (S j) * M)
                 == pow2 (Z.of_nat j * M) * pow2 M).
    { rewrite <- pow2_add by lia. f_equiv. lia. }
    pose proof (pow2_pos (Z.of_nat j * M)) as HP.
    pose proof (pow2_pos M HM) as HT.
    assert (HP' : 0 < pow2 (Z.of_nat j * M)) by (apply HP; lia).
    set (P := pow2 (Z.of_nat j * M)) in *. set (T := pow2 M) in *.
    assert (PT : 0 < P * T) by (apply Qmult_lt_0_compat; assumption).
    rewrite gn_at_succ.
    set (s := gn_at norm lstsq x0 f df r J N err c1 c2 lsi j) in *.
    destruct (gn_cond N err s) eqn:C.
    + rewrite (round_runs _ _ _ C).
      destruct (gn_search lstsq f df r J c1 c2 lsi s) as [[al' i] chk] eqn:E.
      rewrite (gn_body_search norm lstsq f df r J c1 c2 lsi _ al' i chk E).
      simpl. unfold gn_search in E.
      pose proof (ls_return_bounds (gn_x s) (gn_alpha s)
                    (gn_direction lstsq r J (gn_x s)) f df c1 c2 lsi I0) as K.
      cbv zeta in K. rewrite E in K. simpl in K. fold M in K. fold T in K.
      destruct K as (K0 & K1 & K2).
      assert (A1 : P * gn_alpha s <= P * (T * al'))
        by (apply Qmult_le_l; assumption).
      assert (A2 : T * gn_alpha s <= T * P)
        by (apply Qmult_le_l; assumption).
      rewrite EB. repeat split; lra.
    + rewrite (round_idle _ _ _ C).
      assert (T1 : 1 <= T).
      { unfold T. assert (E1 : 1 == pow2 0) by reflexivity.
        rewrite E1. apply pow2_mono. lia. }
      assert (A1 : P * gn_alpha s * 1 <= P * gn_alpha s * T).
      { apply Qmult_le_l; [|exact T1].
        apply Qmult_lt_0_compat; assumption. }
      assert (A2 : P * 1 <= P * T) by (apply Qmult_le_l; assumption).
      rewrite EB. repeat split; lra.
Qed.

(** * The example functions of the notebook *)

(** ** Dot products and matrices *)

Lemma dot_nil_r (u : vec) : dot u [] = 0.
Proof. now destruct u. Qed.

Lemma dot_comm (u v : vec) : dot u v == dot v u.
Proof.
  revert v. induction u as [|a u IH]; intros [|b v]; simpl; try reflexivity.
  rewrite IH. ring.
Qed.

Lemma dot_app (u u' v v' : vec) :
  length u = length u' ->
  dot (u ++ v) (u' ++ v') == dot u u' + dot v v'.
Proof.
  revert u'. induction u as [|a u IH]; intros [|b u'] L; simpl in *;
    try discriminate.
  - ring.
  - rewrite IH by congruence. ring.
Qed.

Lemma dot_veq (u u' v v' : vec) :
  veq u u' -> veq v v' -> dot u v == dot u' v'.
Proof.
  intro H. revert v v'. induction H as [|a a' u u' Ha H IH];
    intros v v' Hv.
  - reflexivity.
  - destruct Hv as [|b b' v v' Hb Hv]; simpl; [reflexivity|].
    rewrite Ha, Hb, (IH v v' Hv). reflexivity.
Qed.

Lemma dot_vscale_l (c : Q) (u v : vec) : dot (vscale c u) v == c * dot u v.
Proof.
  revert v. induction u as [|a u IH]; intros [|b v]; simpl; try ring.
  unfold vscale in IH. rewrite IH. ring.
Qed.

Lemma dot_self_nonneg (u : vec) : 0 <= dot u u.
Proof.
  induction u as [|a u IH]; simpl; [lra|].
  assert (0 <= a * a) by nra. lra.
Qed.

Lemma dot_self_zero (u : vec) : dot u u == 0 <-> vzero u.
Proof.
  unfold vzero. induction u as [|a u IH]; simpl.
  - split; [constructor|reflexivity].
  - pose proof (dot_self_nonneg u) as Hu.
    assert (Ha : 0 <= a * a) by nra.
    split.
    + intro H. assert (Ea : a * a == 0) by lra.
      assert (Eu : dot u u == 0) by lra.
      constructor; [nra|now apply IH].
    + intro H. inversion H as [|? ? Ea Hu']; subst.
      apply IH in Hu'. rewrite Ea, Hu'. ring.
Qed.

(** A list built entry by entry over [seq]. *)
Lemma map_seq_veq (h : nat -> Q) (z : vec) (k : nat) :
  (forall i, (i < length z)%nat -> h (k + i)%nat == nth i z 0) ->
  veq (map h (seq k (length z))) z.
Proof.
  revert k. induction z as [|b z IH]; intros k H; simpl.
  - constructor.
  - constructor.
    + rewrite <- (H 0%nat) by (simpl; lia). now rewrite Nat.add_0_r.
    + apply IH. intros i L. rewrite <- (H (S i)) by (simpl; lia).
      now rewrite Nat.add_succ_r.
Qed.

(** The dot product with a unit vector picks an entry. *)
Lemma dot_unit (i k : nat) (z : vec) :
  (k <= i < k + length z)%nat ->
  dot (map (fun j => if Nat.eqb i j then 1 else 0) (seq k (length z))) z
  == nth (i - k) z 0.
Proof.
  revert k. induction z as [|b z IH]; intros k H; simpl in *; [lia|].
  destruct (Nat.eqb_spec i k) as [E|E].
  - subst k. rewrite Nat.sub_diag.
    assert (Z0 : forall (l : vec) (k' : nat), (i < k')%nat ->
              dot (map (fun j => if Nat.eqb i j then 1 else 0)
                     (seq k' (length l))) l == 0).
    { induction l as [|c l IHl]; intros k' L; simpl; [reflexivity|].
      destruct (Nat.eqb_spec i k'); [lia|].
      rewrite IHl by lia. ring. }
    rewrite Z0 by lia. ring.
  - rewrite IH by lia.
    replace (i - k)%nat with (S (i - S k)) by lia. simpl. ring.
Qed.


Lemma nth_map_seq {A : Type} (h : nat -> A) (d : A) (k n i : nat) :
  (i < n)%nat -> nth i (map h (seq k n)) d = h (k + i)%nat.
Proof.
  revert k i. induction n as [|n IH]; intros k i L; [lia|].
  destruct i as [|i]; simpl.
  - now rewrite Nat.add_0_r.
  - rewrite IH by lia. now rewrite Nat.add_succ_r.
Qed.

Lemma matvec_eye (z : vec) : veq (matvec (eye (length z)) z) z.
Proof.
  unfold matvec, eye. rewrite map_map.
  apply map_seq_veq. intros i L. simpl.
  rewrite (dot_unit i 0 z) by lia. now rewrite Nat.sub_0_r.
Qed.

Lemma matvec_app (M M' : mat) (v : vec) :
  matvec (M ++ M') v = matvec M v ++ matvec M' v.
Proof. apply map_app. Qed.

(** ** The first example: [f], [r], [J], [df] *)



(** X11.  In exact arithmetic and where [la.norm] is exact
    ([norm(x)^2 = x.x]), the objective of the example is the sum of the
    squared residuals, [f(x) = r(x).r(x)]; it is never negative, and it is
    zero exactly at the zero vector. *)
Theorem example_f_sum_of_squares (norm : vec -> Q) (x : vec) :
  norm x ^ 2 == dot x x ->
  Example1.f norm x == dot (Example1.r norm x) (Example1.r norm x) /\
  0 <= Example1.f norm x /\
  (Example1.f norm x == 0 <-> vzero x).
Proof.
  intro H. unfold Example1.f, Example1.r.
  assert (H2 : norm x * norm x == dot x x) by exact H.
  pose proof (dot_self_nonneg x) as Hs.
  assert (Hss : 0 <= dot x x * dot x x) by nra.
  split; [|split].
  - rewrite dot_app by reflexivity. simpl. rewrite !H2. ring.
  - simpl. rewrite !H2. lra.
  - simpl. rewrite !H2, <- dot_self_zero. split; intro K; [lra|].
    rewrite K. ring.
Qed.

Lemma example_f_sum_of_squares_witness :
  norm_int [3; 4] ^ 2 == dot [3; 4] [3; 4] /\
  Example1.f norm_int [3; 4] == 650 /\
  Example1.f norm_int [3; 4]
  == dot (Example1.r norm_int [3; 4]) (Example1.r norm_int [3; 4]) /\
  0 <= Example1.f norm_int [3; 4] /\
  (Example1.f norm_int [3; 4] == 0 <-> vzero [3; 4]).
Proof.
  assert (H : norm_int [3; 4] ^ 2 == dot [3; 4] [3; 4]) by qdecide.
  split; [exact H|]. split; [qdecide|].
  exact (example_f_sum_of_squares norm_int [3; 4] H).
Defined.



(** X13.  The Jacobian of the example never shortens a vector:
    [|J(x) z|^2 = |z|^2 + 4 (x.z)^2 >= |z|^2] for [x] and [z] with [n]
    entries, so [J(x) z = 0] only for [z = 0]. *)
Theorem example_J_full_rank (n : nat) (x z : vec) :
  length x = n -> length z = n ->
  let Jz := matvec (Example1.J n x) z in
  dot Jz Jz == dot z z + 4 * (dot x z) ^ 2 /\
  dot z z <= dot Jz Jz /\
  (vzero Jz -> vzero z).
Proof.
  intros _ L Jz. subst n.
  assert (E : dot Jz Jz == dot z z + 4 * (dot x z) ^ 2).
  { unfold Jz, Example1.J. rewrite matvec_app. simpl matvec.
    rewrite dot_app by reflexivity.
    rewrite (dot_veq _ z _ z (matvec_eye z) (matvec_eye z)).
    simpl dot. rewrite dot_vscale_l. simpl. ring. }
  assert (P : 0 <= 4 * (dot x z) ^ 2) by (simpl; nra).
  split; [exact E|]. split; [lra|].
  intro Z. apply dot_self_zero in Z. apply dot_self_zero.
  pose proof (dot_self_nonneg z). lra.
Qed.

Lemma example_J_full_rank_witness :
  let Jz := matvec (Example1.J 2 [3; 4]) [1; -1] in
  (length [3; 4] = 2%nat /\ length [1; -1] = 2%nat) /\
  veq Jz [1; -1; -2] /\
  dot Jz Jz == dot [1; -1] [1; -1] + 4 * (dot [3; 4] [1; -1]) ^ 2 /\
  dot [1; -1] [1; -1] <= dot Jz Jz /\
  (vzero Jz -> vzero [1; -1]).
Proof.
  intro Jz.
  assert (Lx : length [3; 4] = 2%nat) by reflexivity.
  assert (L : length [1; -1] = 2%nat) by reflexivity.
  split; [split; assumption|]. split; [repeat constructor; qdecide|].
  exact (example_J_full_rank 2 [3; 4] [1; -1] Lx L).
Defined.

(** ** Shekel's foxholes: [J], [dJ], [d2J] *)

Lemma vsub_length (u w : vec) :
  length u = length w -> length (vsub u w) = length w.
Proof.
  revert w. induction u as [|a u IH]; intros [|c w] L; simpl in *;
    try discriminate; [reflexivity|].
  f_equal. apply IH. congruence.
Qed.

Lemma vsum_vadd (u w : vec) :
  length u = length w -> vsum (vadd u w) == vsum u + vsum w.
Proof.
  revert w. induction u as [|a u IH]; intros [|c w] L; simpl in *;
    try discriminate; [ring|].
  rewrite IH by congruence. ring.
Qed.

Lemma vsum_squares_nonneg (d : vec) : 0 <= vsum (map (fun q => q ^ 2) d).
Proof.
  induction d as [|a d IH]; simpl; [lra|].
  assert (0 <= a * a) by nra. simpl in IH. lra.
Qed.

Lemma vsum_squares_self (u : vec) :
  vsum (map (fun q => q ^ 2) (vsub u u)) == 0.
Proof.
  induction u as [|a u IH]; simpl; [reflexivity|].
  simpl in IH. rewrite IH. ring.
Qed.

(** Each [v[i]] is at least the sum of [b]. *)
Lemma shekel_v_lower (A : mat) (b x : vec) :
  rows_like A b -> length x = length b ->
  Forall (fun q => vsum b <= q) (Shekel.v A b x).
Proof.
  intros HA Lx. unfold Shekel.v. apply Forall_map.
  induction HA as [|row A Lr HA IH]; constructor; [|exact IH].
  rewrite vsum_vadd.
  - pose proof (vsum_squares_nonneg (vsub x row)). lra.
  - rewrite length_map, vsub_length; congruence.
Qed.

(** A sum of reciprocals of numbers that are at least [B > 0]. *)
Lemma vsum_inv_bounds (B : Q) (l : vec) :
  0 < B -> Forall (fun q => B <= q) l ->
  0 <= vsum (map (fun q => q ^ (-1)) l) /\
  vsum (map (fun q => q ^ (-1)) l)
  <= inject_Z (Z.of_nat (length l)) * / B /\
  (l <> [] -> 0 < vsum (map (fun q => q ^ (-1)) l)).
Proof.
  intros HB H. induction H as [|q l Hq H (I1 & I2 & _)].
  - simpl. split; [lra|]. split.
    + change (inject_Z 0) with 0. lra.
    + intro K. now elim K.
  - assert (Pq : 0 < q) by lra.
    assert (P1 : 0 < / q) by now apply Qinv_lt_0_compat.
    assert (P2 : / q <= / B).
    { apply Qle_shift_inv_r; [exact Pq|].
      assert (E : / B * B == 1) by (field; lra).
      rewrite <- E. apply Qmult_le_l; [now apply Qinv_lt_0_compat|exact Hq]. }
    change (vsum (map (fun q0 => q0 ^ (-1)) (q :: l)))
      with (/ q + vsum (map (fun q0 => q0 ^ (-1)) l)).
    change (length (q :: l)) with (S (length l)).
    rewrite Nat2Z.inj_succ, <- Z.add_1_r, inject_Z_plus.
    repeat split; try lra.
    change (inject_Z 1) with 1. lra.
Qed.



Lemma vsum_map_ext {A : Type} (h h' : A -> Q) (l : list A) :
  (forall i, h i == h' i) -> vsum (map h l) == vsum (map h' l).
Proof.
  intro H. induction l as [|i l IH]; simpl; [reflexivity|].
  rewrite IH, H. reflexivity.
Qed.

(** Entry [(k, l)] of a table built row by row. *)
Lemma nth_table (h : nat -> nat -> Q) (n k l : nat) :
  (k < n)%nat -> (l < n)%nat ->
  nth l (nth k (map (fun k' => map (fun l' => h k' l') (seq 0 n))
                  (seq 0 n) : mat) []) 0
  = h k l.
Proof.
  intros Lk Ll.
  assert (E : nth k (map (fun k' => map (fun l' => h k' l') (seq 0 n))
                       (seq 0 n) : mat) []
              = map (fun l' => h k l') (seq 0 n))
    by (apply (nth_map_seq (fun k' => map (fun l' => h k' l') (seq 0 n))
                 [] 0 n k Lk)).
  rewrite E. apply (nth_map_seq _ 0 0 n l Ll).
Qed.

(** X15.  In exact arithmetic the Hessian [d2J] returns is symmetric: its
    entries [(k, l)] and [(l, k)] are equal, for [A], [x] and [b] of
    matching shape and [b] of positive sum. *)
Theorem shekel_d2J_symmetric (A : mat) (b : vec) (n : nat) (x : vec)
  (k l : nat) :
  rows_like A b -> length b = n -> length x = n -> 0 < vsum b ->
  (k < n)%nat -> (l < n)%nat ->
  nth l (nth k (Shekel.d2J A b n x) []) 0
  == nth k (nth l (Shekel.d2J A b n x) []) 0.
Proof.
  intros _ _ _ _ Lk Ll. unfold Shekel.d2J.
  rewrite (nth_table _ n k l Lk Ll), (nth_table _ n l k Ll Lk).
  assert (E : vsum (map (fun i => nth i (Shekel.v A b x) 0 ^ (-3)
                                  * (nth k x 0 - nth k (nth i A []) 0)
                                  * (nth l x 0 - nth l (nth i A []) 0))
                      (seq 0 (length A)))
              == vsum (map (fun i => nth i (Shekel.v A b x) 0 ^ (-3)
                                     * (nth l x 0 - nth l (nth i A []) 0)
                                     * (nth k x 0 - nth k (nth i A []) 0))
                         (seq 0 (length A)))).
  { apply vsum_map_ext. intro i. ring. }
  rewrite (Nat.eqb_sym l k).
  destruct (Nat.eqb k l); rewrite E; reflexivity.
Qed.

Lemma shekel_d2J_symmetric_witness :
  let A := [[0; 0]; [3; 4]] in
  let b := [1; 1] in
  (rows_like A b /\ length b = 2%nat /\ length [1; 2] = 2%nat /\
   0 < vsum b /\ (0 < 2)%nat /\ (1 < 2)%nat) /\
  ~ nth 1 (nth 0 (Shekel.d2J A b 2 [1; 2]) []) 0 == 0 /\
  nth 1 (nth 0 (Shekel.d2J A b 2 [1; 2]) []) 0
  == nth 0 (nth 1 (Shekel.d2J A b 2 [1; 2]) []) 0.
Proof.
  intros A b.
  assert (HA : rows_like A b) by (repeat constructor).
  assert (Lb : length b = 2%nat) by reflexivity.
  assert (Lx : length [1; 2] = 2%nat) by reflexivity.
  assert (HB : 0 < vsum b) by reflexivity.
  assert (L0 : (0 < 2)%nat) by lia.
  assert (L1 : (1 < 2)%nat) by lia.
  split; [repeat split; assumption|]. split; [qdecide|].
  exact (shekel_d2J_symmetric A b 2 [1; 2] 0 1 HA Lb Lx HB L0 L1).
Defined.

(** X16.  With a single foxhole [a], the Shekel objective attains its
    minimum [-1 / sum(b)] at [a], and the gradient [dJ] vanishes there. *)
Theorem shekel_single_foxhole (a b : vec) (n : nat) (x : vec) :
  length a = n -> length b = n -> length x = n -> 0 < vsum b ->
  Shekel.J [a] b a == - / vsum b /\
  Shekel.J [a] b a <= Shekel.J [a] b x /\
  vzero (Shekel.dJ [a] b n a).
Proof.
  intros La Lb Lx HB.
  assert (Ea : Shekel.J [a] b a == - / vsum b).
  { unfold Shekel.J, Shekel.v. simpl map. simpl vsum.
    rewrite vsum_vadd by (rewrite length_map, vsub_length; congruence).
    rewrite vsum_squares_self. simpl. field_simplify_eq; [ring|lra]. }
  split; [exact Ea|]. split.
  - assert (HA : rows_like [a] b) by (repeat constructor; congruence).
    assert (Lx' : length x = length b) by congruence.
    destruct (vsum_inv_bounds (vsum b) (Shekel.v [a] b x) HB
                (shekel_v_lower [a] b x HA Lx')) as (_ & K & _).
    rewrite Ea. unfold Shekel.J. simpl in K.
    change (inject_Z 1) with 1 in K. simpl. lra.
  - unfold vzero, Shekel.dJ. apply Forall_map, Forall_forall.
    intros j _. simpl. ring.
Qed.

Lemma shekel_single_foxhole_witness :
  let a := [3; 4] in
  let b := [1; 1] in
  (length a = 2%nat /\ length b = 2%nat /\ length [1; 2] = 2%nat /\
   0 < vsum b) /\
  Shekel.J [a] b [1; 2] == - (1 # 10) /\
  Shekel.J [a] b a == - / vsum b /\
  Shekel.J [a] b a <= Shekel.J [a] b [1; 2] /\
  vzero (Shekel.dJ [a] b 2 a).
Proof.
  intros a b.
  assert (La : length a = 2%nat) by reflexivity.
  assert (Lb : length b = 2%nat) by reflexivity.
  assert (Lx : length [1; 2] = 2%nat) by reflexivity.
  assert (HB : 0 < vsum b) by reflexivity.
  split; [repeat split; assumption|]. split; [qdecide|].
  exact (shekel_single_foxhole a b 2 [1; 2] La Lb Lx HB).
Defined.
